(** * rename-from-QR: a shallow embedding of [rename-from-QR.py]

    The script renames the images of a directory tree after the QR code each
    image carries.  This development embeds its functions
    ([open_image], [find_images], [_find_duplicates], [_file_mapping],
    [qr_code], [get_qr_codes], [rename_image], [main]) and states the
    properties of the specification over them.

    Conventions of the embedding.
    - A Python [str] is a [string] holding its UTF-8 encoding; the separators
      and markers the script looks for are ASCII, so searching bytes and
      searching code points agree.
    - A raised exception is a value: fallible code returns [result].
    - Pillow, pyzbar, the directory listing behind [glob], its expansion of
      a directory argument that has wildcard characters, and the [os] calls
      are interfaces (classes below); every general theorem holds for all
      their implementations.  Paths and patterns follow POSIX: [posixpath],
      and an [fnmatch] that compares case-sensitively.
    - The choices of the event loop, of the thread pool and of the hash
      tables (iteration order of sets) are left to class instances as well.
    - Console output ([print]) is not modelled; the calls into the imaging
      and decoding libraries are recorded as a trace of events. *)

From Stdlib Require Import Ascii String ZArith NArith List Lia Strings.Byte.
From stdpp Require Import base list strings pretty gmap sets.

Open Scope stdpp_scope.

(** ** Exceptions and results *)

(** Subclasses of Python's [Exception] that matter to the script. *)
Inductive exception : Type :=
  | IndexError
  | UnicodeDecodeError
  | TypeError
  | ValueError
  | FileNotFoundError
  | OSError
  | OtherException (name : string).

(** What leaves a call: a value or a raised [e]. *)
Inductive result (E A : Type) : Type :=
  | Ret (a : A)
  | Raise (e : E).
Arguments Ret {E A} a.
Arguments Raise {E A} e.

Global Instance result_ret {E} : MRet (result E) := λ A a, Ret a.
Global Instance result_bind {E} : MBind (result E) := λ A B f m,
  match m with
  | Ret a => f a
  | Raise e => Raise e
  end.

Global Instance exception_eq_dec : EqDecision exception.
Proof. solve_decision. Defined.

(** ** Strings: the [str] methods the script uses *)

Module Str.

Definition sep : ascii := "/"%char.
Definition extsep : ascii := "."%char.

(** [c in s] for a one-character [c]. *)
Fixpoint contains (c : ascii) (s : string) : bool :=
  match s with
  | "" => false
  | String a s' => Ascii.eqb a c || contains c s'
  end.

(** [s.startswith(p)] *)
Fixpoint startswith (p s : string) : bool :=
  match p, s with
  | "", _ => true
  | String a p', String b s' => Ascii.eqb a b && startswith p' s'
  | String _ _, "" => false
  end.
Global Arguments startswith : simpl nomatch.

(** [s.endswith(c)] for a one-character [c]. *)
Fixpoint endswith_char (c : ascii) (s : string) : bool :=
  match s with
  | "" => false
  | String a "" => Ascii.eqb a c
  | String _ s' => endswith_char c s'
  end.

(** [s.endswith(p)] *)
Definition endswith (p s : string) : bool :=
  startswith (String.rev p) (String.rev s).

(** [s == c * len(s)] *)
Fixpoint all_char (c : ascii) (s : string) : bool :=
  match s with
  | "" => true
  | String a s' => Ascii.eqb a c && all_char c s'
  end.

(** [(s[:i], s[i:])] for [i = s.rfind(c) + 1]: the first part is empty when
    [c] does not occur, and ends with the last [c] otherwise. *)
Fixpoint rpartition (c : ascii) (s : string) : string * string :=
  match s with
  | "" => ("", "")
  | String a s' =>
      match rpartition c s' with
      | ("", t) => if Ascii.eqb a c then (String a "", t) else ("", String a t)
      | (h, t) => (String a h, t)
      end
  end.

(** [s.rstrip(c)] for a one-character [c]. *)
Fixpoint rstrip (c : ascii) (s : string) : string :=
  match s with
  | "" => ""
  | String a s' =>
      match rstrip c s' with
      | "" => if Ascii.eqb a c then "" else String a ""
      | r => String a r
      end
  end.

(** [(s[:i], s[i:])] for [i = s.rfind(c)], when [c] occurs in [s]. *)
Fixpoint rsplit_at (c : ascii) (s : string) : option (string * string) :=
  match s with
  | "" => None
  | String a s' =>
      match rsplit_at c s' with
      | Some (h, t) => Some (String a h, t)
      | None => if Ascii.eqb a c then Some ("", s) else None
      end
  end.

End Str.

(** ** [os.path] (posixpath) *)

Module os_path.
Import Str.

(** [posixpath.split] *)
Definition split (p : string) : string * string :=
  let '(head, tail) := rpartition sep p in
  let head :=
    if negb (String.eqb head "") && negb (all_char sep head)
    then rstrip sep head else head in
  (head, tail).

Definition dirname (p : string) : string := fst (split p).

(** [posixpath.basename]: [p[p.rfind('/') + 1:]] *)
Definition basename (p : string) : string := snd (rpartition sep p).

(** [posixpath.join(a, b)] *)
Definition join (a b : string) : string :=
  if startswith "/" b then b
  else if String.eqb a "" || endswith_char sep a then a +:+ b
  else a +:+ "/" +:+ b.

(** [genericpath._splitext(p, '/', None, '.')]: split at the last dot of
    the last component, unless only dots precede it there. *)
Definition splitext (p : string) : string * string :=
  let '(head, tail) := rpartition sep p in
  match rsplit_at extsep tail with
  | Some (stem, ext) =>
      if all_char extsep stem then (p, "") else (head +:+ stem, ext)
  | None => (p, "")
  end.

End os_path.

(** ** [bytes.decode('utf-8')] *)

Module utf8.

Definition between (lo hi b : N) : bool := ((lo <=? b) && (b <=? hi))%N.
Definition continuation (b : N) : bool := between 128 191 b.

(** Well-formed UTF-8 byte sequences, as the strict codec accepts them:
    no overlong forms, no surrogates, nothing above U+10FFFF. *)
Fixpoint well_formed (bs : list N) : bool :=
  match bs with
  | [] => true
  | b0 :: r0 =>
      if (b0 <=? 127)%N then well_formed r0
      else
        match r0 with
        | [] => false
        | b1 :: r1 =>
            if between 194 223 b0 then continuation b1 && well_formed r1
            else
              match r1 with
              | [] => false
              | b2 :: r2 =>
                  if between 224 239 b0 then
                    (if (b0 =? 224)%N then between 160 191 b1
                     else if (b0 =? 237)%N then between 128 159 b1
                     else continuation b1)
                    && continuation b2 && well_formed r2
                  else
                    match r2 with
                    | [] => false
                    | b3 :: r3 =>
                        if between 240 244 b0 then
                          (if (b0 =? 240)%N then between 144 191 b1
                           else if (b0 =? 244)%N then between 128 143 b1
                           else continuation b1)
                          && continuation b2 && continuation b3
                          && well_formed r3
                        else false
                    end
              end
        end
  end.

(** [data.decode('utf-8')]: the text, or [UnicodeDecodeError]. *)
Definition decode (data : list byte) : result exception string :=
  if well_formed (Byte.to_N <$> data)
  then Ret (string_of_list_byte data)
  else Raise UnicodeDecodeError.

End utf8.

(** ** Insertion-ordered dictionaries with [str] keys *)

Module Dict.
Section Dict.
Context {V : Type}.

Definition t : Type := list (string * V).

(** [d.get(k)] *)
Fixpoint get (d : t) (k : string) : option V :=
  match d with
  | [] => None
  | (k', v) :: d' => if String.eqb k' k then Some v else get d' k
  end.

(** [d[k] = v]: in place when [k] is present, appended otherwise. *)
Fixpoint set_item (d : t) (k : string) (v : V) : t :=
  match d with
  | [] => [(k, v)]
  | (k', v') :: d' =>
      if String.eqb k' k then (k', v) :: d' else (k', v') :: set_item d' k v
  end.

Definition keys (d : t) : list string := d.*1.
Definition items (d : t) : list (string * V) := d.

(** A run of [d[k] = v] statements. *)
Fixpoint set_items (d : t) (l : list (string * V)) : t :=
  match l with
  | [] => d
  | (k, v) :: l' => set_items (set_item d k v) l'
  end.
End Dict.
Arguments t : clear implicits.
End Dict.

(** ** Pillow and pyzbar *)

(** The kernels of [PIL.ImageFilter] the script names. *)
Inductive ImageFilter : Type :=
  | BLUR | SMOOTH_MORE | DETAIL | EDGE_ENHANCE_MORE | SHARPEN.

(** The values stored in [MAP_FILTERS]. *)
Inductive object : Type :=
  | PyNone
  | PyStr (s : string)
  | PyFilter (k : ImageFilter).

Definition truthy (o : object) : bool :=
  match o with
  | PyNone => false
  | PyStr s => negb (String.eqb s "")
  | PyFilter _ => true
  end.

Definition MAP_FILTERS : Dict.t object :=
  [ ("none", PyNone);
    ("all", PyStr "all");
    ("blur", PyFilter BLUR);
    ("smooth", PyFilter SMOOTH_MORE);
    ("detail", PyFilter DETAIL);
    ("edges", PyFilter EDGE_ENHANCE_MORE);
    ("sharpen", PyFilter SHARPEN) ].

(** A [pyzbar.Decoded]: the payload bytes and the name of the symbology. *)
Record Decoded : Type := { data : list byte; type : string }.

(** The module globals read by the deep call layers. *)
Record config : Type := {
  ANGLES : list Z;
  FILTERS : list string;
  MONOCHROME : bool
}.

(** Their values when the module is imported. *)
Definition module_globals : config :=
  {| ANGLES := [180; 90; 270; 10; 170; 75; 340]%Z;
     FILTERS := ["blur"; "smooth"];
     MONOCHROME := false |}.

(** Their values after the command line is parsed ([__main__]). *)
Definition cli_globals (angles : list Z) (filters : list string)
    (monochrome : bool) : config :=
  {| ANGLES := angles;
     FILTERS :=
       if bool_decide ("all" ∈ filters)
       then filter (λ f, f ∉ ["all"; "none"]) (Dict.keys MAP_FILTERS)
       else filters;
     MONOCHROME := monochrome |}.

(** The imaging and decoding libraries, over a file system state [FS].
    [pyzbar_decode] is applied to whatever [open_image] returned, [None]
    included. *)
Class Imaging (FS Image : Type) : Type := {
  Image_open : FS → string → result exception Image;
  Image_rotate : Image → Z → result exception Image;
  Image_filter : Image → object → result exception Image;
  (** [img.convert('L').point(fn, mode='1')] *)
  Image_threshold : Image → result exception Image;
  pyzbar_decode : option Image → result exception (list Decoded)
}.

(** ** Calls with a trace *)

Inductive event (Image : Type) : Type :=
  | OpenImage (image_file : string) (rotate : Z) (filter : string)
  | Decode (img : option Image).
Arguments OpenImage {Image} image_file rotate filter.
Arguments Decode {Image} img.

Definition traced (Image A : Type) : Type :=
  list (event Image) * result exception A.

Definition tr_ret {Image A} (a : A) : traced Image A := ([], Ret a).

Definition tr_bind {Image A B} (m : traced Image A) (f : A → traced Image B)
    : traced Image B :=
  match m with
  | (t, Ret a) => let '(t', r) := f a in (t ++ t', r)
  | (t, Raise e) => (t, Raise e)
  end.

Definition tr_call {Image A} (ev : event Image) (r : result exception A)
    : traced Image A := ([ev], r).

(** [try: body / except IndexError: handler] *)
Definition try_except_IndexError {Image A} (body handler : traced Image A)
    : traced Image A :=
  match body with
  | (t, Raise IndexError) => let '(t', r) := handler in (t ++ t', r)
  | _ => body
  end.

Global Instance traced_ret {Image} : MRet (traced Image) := λ A, tr_ret.
Global Instance traced_bind {Image} : MBind (traced Image) :=
  λ A B f m, tr_bind m f.

(** ** The scan strategy *)

Section Scan.
Context {FS Image : Type} `{!Imaging FS Image}.
Variable globals : config.
Variable fs : FS.

Definition open_image (image_file : string) (rotate : Z) (filter : string)
    : option Image :=
  let loaded : result exception Image :=
    img ← Image_open fs image_file;
    img ← (if bool_decide (rotate ≠ 0%Z) then Image_rotate img rotate
           else mret img);
    img ← (if negb (String.eqb filter "")
           then match Dict.get MAP_FILTERS filter with
                | Some o => if truthy o then Image_filter img o else mret img
                | None => mret img
                end
           else mret img);
    img ← (if MONOCHROME globals then Image_threshold img else mret img);
    mret img in
  match loaded with
  | Ret img => Some img
  | Raise _ => None
  end.

(** The defaults of [open_image]'s signature. *)
Definition default_rotate : Z := 1.
Definition default_filter : string := "blur".

(** [(filename, os.path.splitext(os.path.basename(filename))[0])] *)
Definition fallback (filename : string) : string * string :=
  (filename, fst (os_path.splitext (os_path.basename filename))).

(** [qr[0]] *)
Definition item0 {A} (qr : list A) : result exception A :=
  match qr with
  | [] => Raise IndexError
  | q :: _ => Ret q
  end.

(** The statements shared by the two [try] bodies of [qr_code]:
    [qr = decode(img)], [code = qr[0].data.decode('utf-8')], the prefix
    test that raises [IndexError], and [return filename, code]. *)
Definition read_code (filename : string) (img : option Image)
    : traced Image (string * string) :=
  tr_call (Decode img)
    (qr ← pyzbar_decode img;
     q ← item0 qr;
     code ← utf8.decode (data q);
     if Str.startswith "UMMZI" code then Ret (filename, code)
     else Raise IndexError).

(** The [for degrees, filters in product(ANGLES, FILTERS)] loop and the
    [return] after it. *)
Fixpoint transform_attempts (filename : string)
    (attempts : list (Z * string)) : traced Image (string * string) :=
  match attempts with
  | [] => tr_ret (fallback filename)
  | (degrees, filters) :: rest =>
      try_except_IndexError
        (img ← tr_call (OpenImage filename degrees filters)
                 (Ret (open_image filename degrees filters));
         read_code filename img)
        (transform_attempts filename rest)
  end.

(** [itertools.product] *)
Definition product {A B} (xs : list A) (ys : list B) : list (A * B) :=
  x ← xs; y ← ys; [(x, y)].

Definition qr_code (filename : string) : traced Image (string * string) :=
  img ← tr_call (OpenImage filename default_rotate default_filter)
           (Ret (open_image filename default_rotate default_filter));
  match img with
  | None => tr_ret (fallback filename)
  | Some _ =>
      try_except_IndexError
        (read_code filename img)
        (transform_attempts filename
           (product (ANGLES globals) (FILTERS globals)))
  end.

End Scan.

(** ** The collision resolver *)

(** A Python [set] of [str]: the order of iteration is whatever the hash
    table yields, so it is left to the instance; adding a member keeps the
    members already there and adds at most the new one. *)
Class PySet : Type := {
  pyset : Type;
  set_new : pyset;
  set_add : string → pyset → pyset;
  set_iter : pyset → list string;
  set_iter_new : set_iter set_new = [];
  set_iter_add x s :
    set_iter (set_add x s)
    ≡ₚ if bool_decide (x ∈ set_iter s) then set_iter s else x :: set_iter s
}.

(** [enumerate(xs, start)] *)
Fixpoint enumerate_from {A} (start : nat) (xs : list A) : list (nat * A) :=
  match xs with
  | [] => []
  | x :: xs' => (start, x) :: enumerate_from (S start) xs'
  end.

(** [enumerate(xs)] *)
Definition enumerate {A} (xs : list A) : list (nat * A) := enumerate_from 0 xs.

Section Resolver.
Context `{PySet}.

(** [rev = defaultdict(set)], then [rev[qr].add(orig)] for every result. *)
Definition _find_duplicates (results : list (string * string))
    : Dict.t pyset :=
  foldl (λ rev '(orig, qr),
           Dict.set_item rev qr
             (set_add orig (default set_new (Dict.get rev qr))))
        [] results.

(** [".jpg" if i == 0 else f"_copy{i}.jpg"] *)
Definition copy (i : nat) : string :=
  match i with
  | 0 => ".jpg"
  | _ => "_copy" +:+ pretty i +:+ ".jpg"
  end.

(** [os.path.join(os.path.dirname(f), f"{qr}{copy}")] *)
Definition target (qr : string) (i : nat) (f : string) : string :=
  os_path.join (os_path.dirname f) (qr +:+ copy i).

(** The inner loop, [for i, f in enumerate(files): mapping[f] = ...]. *)
Definition assign_group (mapping : Dict.t string)
    (group : string * pyset) : Dict.t string :=
  let '(qr, files) := group in
  foldl (λ mapping '(i, f), Dict.set_item mapping f (target qr i f))
        mapping (enumerate (set_iter files)).

Definition _file_mapping (images : list (string * string))
    : Dict.t string :=
  let images := _find_duplicates images in
  foldl assign_group [] (Dict.items images).

End Resolver.

(** ** File discovery *)

(** What [glob], [os.path.exists] and [os.rename] see and do.  [walk fs root]
    lists every entry below [root]: the chain of directories that leads to
    it, then its name, which as the name of a directory entry holds no
    separator.  [glob_dirs fs pattern] is what [glob] makes of a directory
    pattern that has wildcard characters: the paths that
    [_iglob(pattern, ..., recursive=True, dironly=True)] yields. *)
Class Posix (FS : Type) : Type := {
  walk : FS → string → list (list string * string);
  walk_plain fs root chain name :
    (chain, name) ∈ walk fs root → Str.contains "/" name = false;
  glob_dirs : FS → string → list string;
  os_path_exists : FS → string → bool;
  os_rename : FS → string → string → result exception FS
}.

Module glob.
Section Glob.
Context {FS : Type} `{!Posix FS}.

(** [glob._ishidden] *)
Definition _ishidden (name : string) : bool := Str.startswith "." name.

(** [fnmatch] against the pattern [pre*suf] (no other wildcard). *)
Definition fnmatch (pre suf name : string) : bool :=
  Str.startswith pre name && Str.endswith suf name
  && (String.length pre + String.length suf <=? String.length name).

(** The relative directory [**] yields for a chain of directory names. *)
Fixpoint relative (chain : list string) : string :=
  match chain with
  | [] => ""
  | [c] => c
  | c :: rest => os_path.join c (relative rest)
  end.

(** [glob.has_magic]: one of the characters [*], [?] and [[] occurs. *)
Definition has_magic (s : string) : bool :=
  Str.contains "*" s || Str.contains "?" s || Str.contains "[" s.

(** The directories that the [**] of [directory + "/**"] starts from:
    [_iglob] splits the two stars off and, when what is left has wildcard
    characters, expands it ([dirs = _iglob(dirname, ..., True)]); otherwise
    it is taken as it is written ([dirs = [dirname]]). *)
Definition roots (fs : FS) (directory : string) : list string :=
  let dirname := fst (os_path.split (directory +:+ "/**")) in
  if has_magic dirname then glob_dirs fs dirname else [dirname].

(** [iglob(directory + "/**/" + pre + "*" + suf, recursive=True)]: from
    each root, [**] descends through the directories that are not hidden,
    and the last component is matched against the entries that are not
    hidden. *)
Definition iglob (fs : FS) (directory pre suf : string) : list string :=
  root ← roots fs directory;
  '(chain, name) ← walk fs root;
  if forallb (λ c, negb (_ishidden c)) chain
     && negb (_ishidden name) && fnmatch pre suf name
  then [os_path.join (os_path.join root (relative chain)) name]
  else [].
End Glob.
End glob.

Section Discovery.
Context {FS : Type} `{!Posix FS}.

Definition find_images (fs : FS) (directory : string) : gset string :=
  let images : gset string := list_to_set (glob.iglob fs directory "" ".jpg") in
  let images := images ∪ list_to_set (glob.iglob fs directory "" ".jpeg") in
  let images := images ∪ list_to_set (glob.iglob fs directory "image" ".jpg") in
  let images := images ∪ list_to_set (glob.iglob fs directory "" ".JPG") in
  let images := images ∪ list_to_set (glob.iglob fs directory "" ".JEPG") in
  let images := images ∖ list_to_set (glob.iglob fs directory "UMMZI" ".jpg") in
  let images := images ∖ list_to_set (glob.iglob fs directory "UMMZI" ".JPG") in
  images.

End Discovery.

(** ** The work scheduler and the driver *)

(** What ends the process: an exception that nobody catches, or
    [sys.exit(message)]. *)
Inductive raised : Type :=
  | Uncaught (e : exception)
  | SystemExit (message : string).

(** The choices the event loop and the thread pool make: the order in which
    the set of completed scans is read, and the interleaving of the rename
    tasks (which task takes its next step). *)
Class Scheduling : Type := {
  completed_order : list string → list string;
  completed_order_perm l : completed_order l ≡ₚ l;
  rename_schedule : list (string * string) → list nat
}.

(** A [rename_image(old, new)] coroutine: before its first await, between
    its two awaits, and done. *)
Inductive rename_task : Type :=
  | Start (old new : string)
  | Checked (old new : string) (exists_ : bool)
  | Finished.

(** Calling [rename_image(old, new)] creates the coroutine. *)
Definition rename_image (old new : string) : rename_task := Start old new.

Section Driver.
Context {FS Image : Type} `{!Imaging FS Image} `{!Posix FS}.
Context `{!PySet} `{!Scheduling}.
Variable globals : config.

Definition abort_message (directory : string) : string :=
  "No unscanned images detected in " +:+ directory +:+ " - Aborting".

Definition lift_exception {A} (r : result exception A) : result raised A :=
  match r with
  | Ret a => Ret a
  | Raise e => Raise (Uncaught e)
  end.

(** One scan per image; [qr.result()] re-raises what a scan raised. *)
Definition get_qr_codes (fs : FS) (directory : string)
    : result raised (list (string * string)) :=
  let unscanned := find_images fs directory in
  if bool_decide (size unscanned = 0)
  then Raise (SystemExit (abort_message directory))
  else
    lift_exception
      (mapM (λ img, snd (qr_code globals fs img))
            (completed_order (elements unscanned))).

(** One step of the coroutine: the awaited [_exists(new)], then the awaited
    [_rename(old, new)] when the destination was absent. *)
Definition rename_step (fs : FS) (t : rename_task)
    : FS * result exception rename_task :=
  match t with
  | Start old new => (fs, Ret (Checked old new (os_path_exists fs new)))
  | Checked old new true => (fs, Ret Finished)
  | Checked old new false =>
      match os_rename fs old new with
      | Ret fs' => (fs', Ret Finished)
      | Raise e => (fs, Raise e)
      end
  | Finished => (fs, Ret Finished)
  end.

(** Advance the tasks named by the schedule, one step each time. *)
Fixpoint run_schedule (schedule : list nat) (fs : FS)
    (tasks : list rename_task) : FS * result exception (list rename_task) :=
  match schedule with
  | [] => (fs, Ret tasks)
  | i :: schedule' =>
      match tasks !! i with
      | None => run_schedule schedule' fs tasks
      | Some t =>
          match rename_step fs t with
          | (fs', Ret t') => run_schedule schedule' fs' (<[i := t']> tasks)
          | (fs', Raise e) => (fs', Raise e)
          end
      end
  end.

(** [asyncio.gather] of the rename coroutines: the scheduled steps, then
    whatever steps are still due, task by task; the first exception ends
    the batch. *)
Definition gather_renames (fs : FS) (images : list (string * string))
    : FS * result exception unit :=
  let tasks := (λ '(old, new), rename_image old new) <$> images in
  let indices := seq 0 (length tasks) in
  match run_schedule (rename_schedule images ++ indices ++ indices) fs tasks with
  | (fs', Ret _) => (fs', Ret ())
  | (fs', Raise e) => (fs', Raise e)
  end.

(** The [for directory in dirs] loop of [main]; the first component lists
    the directories whose scan and rename cycle was completed. *)
Fixpoint main_loop (fs : FS) (dirs : list string)
    : list string * FS * result raised unit :=
  match dirs with
  | [] => ([], fs, Ret ())
  | directory :: dirs' =>
      match get_qr_codes fs directory with
      | Raise e => ([], fs, Raise e)
      | Ret results =>
          let images := _file_mapping results in
          match gather_renames fs (Dict.items images) with
          | (fs', Raise e) => ([], fs', Raise (Uncaught e))
          | (fs', Ret _) =>
              let '(log, fs'', r) := main_loop fs' dirs' in
              (directory :: log, fs'', r)
          end
      end
  end.

(** [ThreadPoolExecutor(max_workers=workers)] raises [ValueError] for a
    number of workers that is not positive, before the [try] and so before
    any directory is looked at; otherwise [workers] sizes the thread pool,
    whose choices are [Scheduling]'s.  The [finally: loop.close()] changes
    nothing that is modelled. *)
Definition main (fs : FS) (dirs : list string) (workers : Z)
    : list string * FS * result raised unit :=
  if (workers <=? 0)%Z then ([], fs, Raise (Uncaught ValueError))
  else main_loop fs dirs.

End Driver.

(** ** A concrete world, to run the model on *)

Module Lab.

(** What the decoder reads on a picture, given the rotations and the
    kernels applied to it so far and whether it was thresholded. *)
Definition scene : Type :=
  list Z → list ImageFilter → bool → result exception (list Decoded).

Record picture : Type := {
  reads : scene;
  rotations : list Z;
  kernels : list ImageFilter;
  thresholded : bool
}.

Inductive content : Type :=
  | NotAnImage
  | Picture (reads : scene).

(** Regular files by path; the directories are the prefixes of the
    paths.  Paths are compared as they are spelled: one with a [.] or
    [..] component or a doubled separator names nothing here. *)
Definition files : Type := list (string * content).

Fixpoint lookup_file (fs : files) (path : string) : option content :=
  match fs with
  | [] => None
  | (p, c) :: fs' => if String.eqb p path then Some c else lookup_file fs' path
  end.

(** [s.split('/')] *)
Fixpoint components (s : string) : list string :=
  match s with
  | "" => [""]
  | String a s' =>
      if Ascii.eqb a Str.sep then "" :: components s'
      else match components s' with
           | [] => [String a ""]
           | c :: cs => String a c :: cs
           end
  end.

(** [s[len(p):]] when [s] starts with [p]. *)
Fixpoint strip_prefix (p s : string) : option string :=
  match p, s with
  | "", _ => Some s
  | String a p', String b s' =>
      if Ascii.eqb a b then strip_prefix p' s' else None
  | _, "" => None
  end.

(** The chain of directories and the name that lead from [root] to the
    file at [path]; the root [""] is the current directory, which holds
    the relative paths. *)
Definition below (root path : string) : option (list string * string) :=
  if String.eqb root "" && Str.startswith "/" path then None
  else
    rel ← strip_prefix (os_path.join root "") path;
    match reverse (components rel) with
    | name :: chain => Some (reverse chain, name)
    | [] => None
    end.

(** [os.path.lexists] *)
Definition lexists (fs : files) (path : string) : bool :=
  existsb (λ '(p, _), String.eqb p path || Str.startswith (path +:+ "/") p) fs.

(** [os.path.isdir] *)
Definition isdir (fs : files) (path : string) : bool :=
  negb (String.eqb path "")
  && existsb (λ '(p, _), match below path p with
                         | Some _ => true
                         | None => false
                         end) fs.

(** A path that leads through a regular file. *)
Definition through_a_file (fs : files) (path : string) : bool :=
  existsb (λ '(p, _), Str.startswith (p +:+ "/") path) fs.

(** [Image.rotate] starts with [angle % 360.0], which raises
    [OverflowError] for an [int] that does not convert to a [float]: one of
    magnitude [2**1024 - 2**970] or more. *)
Definition fits_float (n : Z) : bool :=
  (Z.abs n <? Z.shiftl 1 1024 - Z.shiftl 1 970)%Z.

(** [pyzbar.decode] unpacks what is no image as a tuple of pixels, width
    and height, which raises [TypeError] on [None]. *)
Global Instance imaging : Imaging files picture := {|
  Image_open fs path :=
    match lookup_file fs path with
    | Some (Picture r) =>
        Ret {| reads := r; rotations := []; kernels := []; thresholded := false |}
    | Some NotAnImage => Raise (OtherException "UnidentifiedImageError")
    | None =>
        if isdir fs path then Raise (OtherException "IsADirectoryError")
        else if through_a_file fs path
        then Raise (OtherException "NotADirectoryError")
        else Raise FileNotFoundError
    end;
  Image_rotate img angle :=
    if fits_float angle
    then Ret {| reads := reads img; rotations := rotations img ++ [angle];
                kernels := kernels img; thresholded := thresholded img |}
    else Raise (OtherException "OverflowError");
  Image_filter img o :=
    match o with
    | PyFilter k =>
        Ret {| reads := reads img; rotations := rotations img;
               kernels := kernels img ++ [k]; thresholded := thresholded img |}
    | _ => Raise TypeError
    end;
  Image_threshold img :=
    Ret {| reads := reads img; rotations := rotations img;
           kernels := kernels img; thresholded := true |};
  pyzbar_decode img :=
    match img with
    | Some img => reads img (rotations img) (kernels img) (thresholded img)
    | None => Raise TypeError
    end
|}.

(** The names [os.scandir] finds in a directory, told apart from the
    subdirectories among them. *)
Definition scandir (fs : files) (dirname : string) : list (string * bool) :=
  remove_dups
    (omap (λ '(path, _),
             '(chain, name) ← below dirname path;
             match chain with
             | [] => Some (name, false)
             | sub :: _ => Some (sub, true)
             end) fs).

(** [glob._listdir(dirname, None, dironly=True)] *)
Definition _listdir (fs : files) (dirname : string) : list string :=
  omap (λ '(name, is_dir), if is_dir : bool then Some name else None)
       (scandir fs dirname).

(** The entries on the way from a root to a file: the directories of
    the chain, each after the chain that leads to it, and the file. *)
Fixpoint entries_along (before rest : list string) (name : string)
    : list (list string * string) :=
  match rest with
  | [] => [(before, name)]
  | c :: rest' => (before, c) :: entries_along (before ++ [c]) rest' name
  end.

(** What stops the way to the directory of a path, if anything: a
    regular file on the way, or a directory that is not there. *)
Definition lookup_parent (fs : files) (path : string) : option exception :=
  let parent := os_path.dirname path in
  if through_a_file fs path then Some (OtherException "NotADirectoryError")
  else if String.eqb parent "" || isdir fs parent then None
  else Some FileNotFoundError.

(** [os.rename], after both paths were looked up: of a file, onto a file
    or to a new name; of a directory, to a new name. *)
Definition rename_entry (fs : files) (old new : string)
    : result exception files :=
  match lookup_file fs old with
  | Some c =>
      if Str.startswith (new +:+ "/") old then Raise OSError
      else if isdir fs new then Raise (OtherException "IsADirectoryError")
      else Ret ((new, c) :: filter (λ '(p, _), p ≠ old ∧ p ≠ new) fs)
  | None =>
      if Str.startswith (old +:+ "/") new then Raise OSError
      else if isdir fs new then Raise OSError
      else if lexists fs new then Raise (OtherException "NotADirectoryError")
      else Ret ((λ '(p, c),
                   match strip_prefix (old +:+ "/") p with
                   | Some rel => (new +:+ "/" +:+ rel, c)
                   | None => (p, c)
                   end) <$> fs)
  end.

(** [os.rename] *)
Definition rename (fs : files) (old new : string) : result exception files :=
  match lookup_parent fs old, lookup_parent fs new with
  | Some e, _ | None, Some e => Raise e
  | None, None =>
      if negb (lexists fs old) then Raise FileNotFoundError
      else if String.eqb old new then Ret fs
      else rename_entry fs old new
  end.

(** *** [fnmatch] with every wildcard, for the directory patterns *)

(** An element of a translated pattern: [*], [?], a character, or a set
    of character ranges, negated or not. *)
Inductive token : Type :=
  | STAR
  | AnyChar
  | Literal (c : ascii)
  | CharSet (negated : bool) (ranges : list (ascii * ascii)).

(** An element between the brackets of the regular expression: a
    character taken for itself, or the hyphen of a range. *)
Inductive set_item : Type :=
  | Ch (c : ascii)
  | Hyphen.

(** [s.find(c, start)] *)
Fixpoint find_char (c : ascii) (start : nat) (s : list ascii) : option nat :=
  match s with
  | [] => None
  | a :: s' =>
      match start with
      | 0 => if Ascii.eqb a c then Some 0 else S <$> find_char c 0 s'
      | S start' => S <$> find_char c start' s'
      end
  end.

(** Where the bracket opened before [s] closes: after a leading [!] and a
    leading []], at the next []]. *)
Definition closing (s : list ascii) : option nat :=
  let j := if bool_decide (s !! 0 = Some "!"%char) then 1 else 0 in
  let j := if bool_decide (s !! j = Some "]"%char) then S j else j in
  find_char "]" j s.

(** The [while True] loop that cuts [stuff] at the hyphens that make
    ranges: the chunks cut off, and what is left. *)
Fixpoint split_chunks (fuel start : nat) (s : list ascii)
    : list (list ascii) * list ascii :=
  match fuel with
  | 0 => ([], s)
  | S fuel' =>
      match find_char "-" start s with
      | None => ([], s)
      | Some k =>
          let '(chunks, chunk) := split_chunks fuel' 2 (drop (S k) s) in
          (take k s :: chunks, chunk)
      end
  end.

Definition chunks_of (stuff : list ascii) : list (list ascii) :=
  let start := if bool_decide (stuff !! 0 = Some "!"%char) then 2 else 1 in
  let '(chunks, chunk) := split_chunks (length stuff) start stuff in
  match chunk with
  | [] =>
      match reverse chunks with
      | c :: before => reverse before ++ [c ++ ["-"%char]]
      | [] => []
      end
  | _ => chunks ++ [chunk]
  end.

(** The removal of the empty ranges, from the last pair of chunks to the
    first. *)
Fixpoint merge_chunks (chunks : list (list ascii)) : list (list ascii) :=
  match chunks with
  | [] => []
  | c :: rest =>
      match merge_chunks rest with
      | [] => [c]
      | d :: ds =>
          match last c, head d with
          | Some a, Some b =>
              if (N_of_ascii b <? N_of_ascii a)%N
              then (removelast c ++ tail d) :: ds
              else c :: d :: ds
          | _, _ => c :: d :: ds
          end
      end
  end.

(** What stands between the brackets of the regular expression. *)
Definition set_items (stuff : list ascii) : list set_item :=
  if bool_decide ("-"%char ∈ stuff)
  then match merge_chunks (chunks_of stuff) with
       | [] => []
       | c :: rest =>
           (Ch <$> c) ++ (rest ≫= λ d : list ascii, Hyphen :: (Ch <$> d))
       end
  else Ch <$> stuff.

Definition item_char (x : set_item) : ascii :=
  match x with
  | Ch c => c
  | Hyphen => "-"%char
  end.

(** The set as [re] reads it: a hyphen between two elements makes a range
    of them, any other element stands for itself. *)
Fixpoint set_ranges (items : list set_item) : list (ascii * ascii) :=
  match items with
  | [] => []
  | x :: Hyphen :: y :: rest => (item_char x, item_char y) :: set_ranges rest
  | x :: rest => (item_char x, item_char x) :: set_ranges rest
  end.

Definition set_token (stuff : list ascii) : token :=
  match set_items stuff with
  | [] => CharSet false []
  | [Ch "!"%char] => AnyChar
  | Ch "!"%char :: items => CharSet true (set_ranges items)
  | items => CharSet false (set_ranges items)
  end.

(** [fnmatch.translate] *)
Fixpoint translate (fuel : nat) (pat : list ascii) : list token :=
  match fuel, pat with
  | S fuel', c :: rest =>
      if Ascii.eqb c "*" then STAR :: translate fuel' rest
      else if Ascii.eqb c "?" then AnyChar :: translate fuel' rest
      else if Ascii.eqb c "["
      then match closing rest with
           | Some j =>
               set_token (take j rest) :: translate fuel' (drop (S j) rest)
           | None => Literal "[" :: translate fuel' rest
           end
      else Literal c :: translate fuel' rest
  | _, _ => []
  end.

Definition in_ranges (c : ascii) (ranges : list (ascii * ascii)) : bool :=
  existsb (λ '(lo, hi), (N_of_ascii lo <=? N_of_ascii c)%N
                        && (N_of_ascii c <=? N_of_ascii hi)%N) ranges.

Definition matches_char (t : token) (c : ascii) : bool :=
  match t with
  | STAR | AnyChar => true
  | Literal a => Ascii.eqb a c
  | CharSet negated ranges => xorb negated (in_ranges c ranges)
  end.

(** The whole of [s] matches the translated pattern. *)
Fixpoint matches (tokens : list token) (s : list ascii) : bool :=
  match tokens with
  | [] => match s with [] => true | _ => false end
  | STAR :: tokens' =>
      (fix star (s : list ascii) : bool :=
         matches tokens' s
         || match s with
            | [] => false
            | _ :: s' => star s'
            end) s
  | t :: tokens' =>
      match s with
      | [] => false
      | c :: s' => matches_char t c && matches tokens' s'
      end
  end.

(** [fnmatch.fnmatchcase] *)
Definition fnmatchcase (name pat : string) : bool :=
  let pat := list_ascii_of_string pat in
  matches (translate (length pat) pat) (list_ascii_of_string name).

(** *** [glob] on a directory pattern *)

(** [glob._join] *)
Definition _join (dirname basename : string) : string :=
  if String.eqb dirname "" then basename
  else if String.eqb basename "" then dirname
  else os_path.join dirname basename.

(** [glob._glob0], for a component without wildcard. *)
Definition _glob0 (fs : files) (dirname basename : string) : list string :=
  if negb (String.eqb basename "")
  then if lexists fs (_join dirname basename) then [basename] else []
  else if isdir fs dirname then [basename] else [].

(** [glob._glob1(dirname, pattern, None, True)] *)
Definition _glob1 (fs : files) (dirname pattern : string) : list string :=
  let names := _listdir fs dirname in
  let names :=
    if glob._ishidden pattern then names
    else filter (λ x, glob._ishidden x = false) names in
  filter (λ x, fnmatchcase x pattern = true) names.

(** The paths [_rlistdir] yields along a chain of directories. *)
Fixpoint descents (chain : list string) : list string :=
  match chain with
  | [] => []
  | x :: rest =>
      if glob._ishidden x then []
      else x :: (_join x <$> descents rest)
  end.

(** [glob._rlistdir(dirname, None, True)] *)
Definition _rlistdir (fs : files) (dirname : string) : list string :=
  remove_dups
    ('(path, _) ← fs;
     match below dirname path with
     | Some (chain, _) => descents chain
     | None => []
     end).

(** [glob._glob2(dirname, "**", None, True)] *)
Definition _glob2 (fs : files) (dirname : string) : list string :=
  "" :: _rlistdir fs dirname.

(** [glob._iglob(pathname, "", None, True, True)], which is entered with
    a pattern that has wildcard characters. *)
Fixpoint _iglob (fuel : nat) (fs : files) (pathname : string)
    : list string :=
  match fuel with
  | 0 => []
  | S fuel' =>
      let '(dirname, basename) := os_path.split pathname in
      if negb (glob.has_magic pathname) then []
      else if String.eqb dirname ""
      then if String.eqb basename "**" then _glob2 fs ""
           else _glob1 fs "" basename
      else
        let dirs :=
          if negb (String.eqb dirname pathname) && glob.has_magic dirname
          then _iglob fuel' fs dirname
          else [dirname] in
        dirname ← dirs;
        name ← (if glob.has_magic basename
                then if String.eqb basename "**" then _glob2 fs dirname
                     else _glob1 fs dirname basename
                else _glob0 fs dirname basename);
        [os_path.join dirname name]
  end.

Global Instance posix : Posix files.
Proof.
  refine {|
    walk fs root :=
      remove_dups
        ('(path, _) ← fs;
         match below root path with
         | Some (chain, name) => entries_along [] chain name
         | None => []
         end);
    glob_dirs fs pattern := _iglob (S (String.length pattern)) fs pattern;
    os_path_exists := lexists;
    os_rename := rename
  |}.
  assert (∀ s, Forall (λ x, Str.contains "/" x = false) (components s))
    as Hplain.
  { induction s as [|a s IH]; cbn [components]; [by repeat constructor|].
    destruct (Ascii.eqb a Str.sep) eqn:Ha; [by constructor|].
    change Str.sep with "/"%char in Ha.
    destruct (components s) as [|c cs].
    { repeat constructor. cbn [Str.contains]. by rewrite Ha. }
    apply Forall_cons in IH as [Hc Hcs].
    constructor; [|done]. cbn [Str.contains]. by rewrite Ha, Hc. }
  assert (∀ rest before name e,
            e ∈ entries_along before rest name → e.2 ∈ rest ++ [name])
    as Halong.
  { induction rest as [|c rest IH]; intros before name e He; simpl in *.
    - apply list_elem_of_singleton in He as ->. left.
    - apply elem_of_cons in He as [->|He]; [left|right; eauto]. }
  intros fs root chain name Hin.
  apply (proj1 (elem_of_remove_dups _ _)) in Hin.
  apply list_elem_of_bind in Hin as ([path c] & Hin & _).
  unfold below in Hin.
  destruct (String.eqb root "" && Str.startswith "/" path);
    [by apply elem_of_nil in Hin|].
  destruct (strip_prefix (os_path.join root "") path) as [rel|];
    [|by apply elem_of_nil in Hin].
  simpl in Hin.
  destruct (reverse (components rel)) as [|name' chain'] eqn:Hrev;
    [by apply elem_of_nil in Hin|].
  apply Halong in Hin. simpl in Hin.
  eapply (proj1 (Forall_forall _ _) (Hplain rel)).
  apply (f_equal reverse) in Hrev. rewrite reverse_involutive in Hrev.
  by rewrite Hrev, reverse_cons.
Defined.

(** A set that iterates in insertion order. *)
Definition add_last (x : string) (s : list string) : list string :=
  if bool_decide (x ∈ s) then s else s ++ [x].

Global Instance insertion_ordered : PySet.
Proof.
  refine {| pyset := list string;
            set_new := [];
            set_add := add_last;
            set_iter s := s;
            set_iter_new := eq_refl |}.
  intros x s. unfold add_last. case_bool_decide; [done|].
  by rewrite Permutation_app_comm.
Defined.

(** Results read in the order of submission; rename tasks run one after
    the other. *)
Global Instance sequential : Scheduling := {|
  completed_order l := l;
  completed_order_perm l := Permutation_refl l;
  rename_schedule _ := []
|}.

Definition qr (payload : string) : Decoded :=
  {| data := list_byte_of_string payload; type := "QRCODE" |}.

(** A picture on which the decoder finds nothing. *)
Definition blank : content := Picture (λ _ _ _, Ret []).

(** A picture on which the decoder finds [codes] whatever the transform. *)
Definition always (codes : list Decoded) : content :=
  Picture (λ _ _ _, Ret codes).

(** A picture that is read only when no transform was applied to it. *)
Definition only_untransformed (codes : list Decoded) : content :=
  Picture (λ rotations kernels _,
             match rotations, kernels with
             | [], [] => Ret codes
             | _, _ => Ret []
             end).

Definition barcode (payload : string) : Decoded :=
  {| data := list_byte_of_string payload; type := "CODE128" |}.

(** A picture on which the decoder misreads [noise] unless the single
    rotation [angle] was applied, and then finds [codes]. *)
Definition misread_unless_rotated (angle : Z) (noise codes : list Decoded)
    : content :=
  Picture (λ rotations _ _,
             if bool_decide (rotations = [angle]) then Ret codes
             else Ret noise).

(** The globals after a command line that names directories only. *)
Definition cli_defaults : config :=
  cli_globals (ANGLES module_globals) ["blur"] false.

(** A label that is only readable on the picture as it was taken. *)
Definition label_only_untransformed : files :=
  [("d/a.jpg", only_untransformed [qr "UMMZI123"])].

(** A picture of a Code 128 barcode, without any QR code. *)
Definition barcode_only : files :=
  [("d/a.jpg", always [barcode "UMMZI42"])].

(** A good label, and a QR code whose bytes are not UTF-8. *)
Definition binary_payload : files :=
  [("d/a.jpg", always [qr "UMMZI1"]);
   ("d/b.jpg", always [{| data := [xff]; type := "QRCODE" |}])].

(** Three pictures without a code in one directory. *)
Definition unscannable : files :=
  [("d/a.jpg", blank); ("d/a.jpeg", blank); ("d/a_copy1.jpg", blank)].

(** A directory that holds renamed files only. *)
Definition already_renamed : files :=
  [("d/UMMZI1.jpeg", blank); ("d/UMMZI2.jpg", blank);
   ("d/UMMZI3.JPG", blank)].

Definition upper_case_jpeg : files := [("d/x.JPEG", blank)].

(** A label misread until the picture is turned by 90 degrees. *)
Definition sideways : files :=
  [("d/a.jpg", misread_unless_rotated 90 [qr "GARBAGE"] [qr "UMMZI7"])].

(** A picture without a code, and a file that is not a picture. *)
Definition nothing_to_read : files :=
  [("d/a.jpg", blank); ("d/notes.jpg", NotAnImage)].

(** Scan results: three files with one payload, one file on its own. *)
Definition three_of_a_kind : list (string * string) :=
  [("d/a.jpg", "UMMZI1"); ("e/b.JPG", "UMMZI1"); ("d/c.jpeg", "UMMZI1");
   ("d/x.jpg", "x")].

(** A label whose text has the marker and a path separator. *)
Definition separator_in_label : files :=
  [("d/a.jpg", always [qr "UMMZI/1"])].


(** Labelled pictures in [d] and [f]; nothing in [e]. *)
Definition two_directories : files :=
  [("d/a.jpg", always [qr "UMMZI7"]); ("f/b.jpg", always [qr "UMMZI8"])].

End Lab.

(** ** Vocabulary of the statements *)

(** The characters of a [str], as a list. *)
Abbreviation chars := list_ascii_of_string.

(** A decimal digit. *)
Definition digit (c : ascii) : Prop := is_Some (Ascii.is_nat c).

Section Vocabulary.
Context {FS Image : Type} `{!Imaging FS Image}.

(** The payload a decode attempt yields: the text of the first code. *)
Definition first_payload (img : option Image) : option string :=
  match pyzbar_decode img with
  | Ret (q :: _) =>
      match utf8.decode (data q) with
      | Ret code => Some code
      | Raise _ => None
      end
  | _ => None
  end.

(** A decode attempt that ends without a code of the required prefix: the
    decoder found nothing, or the first payload lacks the prefix. *)
Definition no_valid_code (img : option Image) : bool :=
  match pyzbar_decode img with
  | Ret [] => true
  | Ret (q :: _) =>
      match utf8.decode (data q) with
      | Ret code => negb (Str.startswith "UMMZI" code)
      | Raise _ => false
      end
  | Raise _ => false
  end.

(** The events [t], then the computation [m]. *)
Definition after {A} (t : list (event Image)) (m : traced Image A)
    : traced Image A :=
  (t ++ m.1, m.2).

(** The [open_image] calls of a trace: rotation and filter name. *)
Definition opened (t : list (event Image)) : list (Z * string) :=
  omap (λ ev, match ev with
              | OpenImage _ rotate filter => Some (rotate, filter)
              | Decode _ => None
              end) t.

(** The images handed to the decoder in a trace. *)
Definition decoded (t : list (event Image)) : list (option Image) :=
  omap (λ ev, match ev with
              | OpenImage _ _ _ => None
              | Decode img => Some img
              end) t.

End Vocabulary.

Section ResolverVocabulary.
Context `{PySet}.

(** The [mapping[f] = ...] statements the inner loop runs for a group. *)
Definition group_assignments (group : string * pyset)
    : list (string * string) :=
  let '(qr, files) := group in
  (λ '(i, f), (f, target qr i f)) <$> enumerate (set_iter files).

(** ... and those of the whole double loop, in order. *)
Definition assignments (groups : Dict.t pyset) : list (string * string) :=
  groups ≫= group_assignments.

(** What the grouping has built after the results [processed]: one entry
    per payload seen, holding exactly the paths scanned with it. *)
Definition groups_of (rev : Dict.t pyset)
    (processed : list (string * string)) : Prop :=
  NoDup (Dict.keys rev)
  ∧ (∀ qr files, Dict.get rev qr = Some files →
       NoDup (set_iter files)
       ∧ ∀ f, f ∈ set_iter files ↔ (f, qr) ∈ processed)
  ∧ (∀ f qr, (f, qr) ∈ processed → is_Some (Dict.get rev qr)).

End ResolverVocabulary.

(** ** Vocabulary of the further properties *)

(** The directory [iglob] starts from. *)
Definition glob_root (directory : string) : string :=
  (os_path.split (directory +:+ "/**")).1.

(** An entry that [**] reaches and [*] matches: no hidden name on the way. *)
Definition visible (chain : list string) (name : string) : bool :=
  forallb (λ c, negb (glob._ishidden c)) chain && negb (glob._ishidden name).

(** The path [iglob] yields for an entry. *)
Definition path_of (directory : string) (chain : list string)
    (name : string) : string :=
  os_path.join (os_path.join (glob_root directory) (glob.relative chain)) name.

(** The extensions [find_images] looks for, as spelled in its patterns. *)
Definition image_name (name : string) : bool :=
  Str.endswith ".jpg" name || Str.endswith ".jpeg" name
  || Str.endswith ".JPG" name || Str.endswith ".JEPG" name.

(** The names [find_images] subtracts. *)
Definition marked_name (name : string) : bool :=
  Str.startswith "UMMZI" name
  && (Str.endswith ".jpg" name || Str.endswith ".JPG" name).

(** A rename task that cannot change the files [fs]: its destination is
    there, or it has seen it there, or it is done. *)
Definition settled {FS : Type} `{!Posix FS} (fs : FS) (t : rename_task)
    : Prop :=
  match t with
  | Start _ new => os_path_exists fs new = true
  | Checked _ _ seen => seen = true
  | Finished => True
  end.

(** What [rename_image(old, new)] does when nothing else runs. *)
Definition rename_alone {FS : Type} `{!Posix FS} (fs : FS) (old new : string)
    : FS * result exception unit :=
  if os_path_exists fs new then (fs, Ret ())
  else match os_rename fs old new with
       | Ret fs' => (fs', Ret ())
       | Raise e => (fs, Raise e)
       end.

(** Further inputs to run the model on. *)
Module Cases.
Import Lab.

(** Scan results: a picture without a code and a labelled one. *)
Definition one_each : list (string * string) :=
  [("d/a.jpg", "a"); ("d/b.jpg", "UMMZI1")].

(** A directory that holds renamed [.jpg] files and a text file. *)
Definition marked_only : files :=
  [("d/UMMZI2.jpg", blank); ("d/sub/UMMZI3.JPG", blank);
   ("d/notes.txt", blank)].

(** A labelled picture in [c]; in [d], a QR code whose bytes are not
    UTF-8; nothing looked at in [e]. *)
Definition good_then_bad : files :=
  [("c/a.jpg", always [qr "UMMZI5"]);
   ("d/b.jpg", always [{| data := [xff]; type := "QRCODE" |}]);
   ("e/c.jpg", always [qr "UMMZI6"])].

(** A directory [d1], and a directory spelled like the pattern that
    matches it. *)
Definition bracket_names : files :=
  [("d1/b.jpg", blank); ("d[1]/a.jpg", blank)].

(** The globals after [--monochrome]. *)
Definition monochrome_cli : config :=
  cli_globals (ANGLES module_globals) ["blur"] true.

(** The blank picture after the first [open_image] of a monochrome scan. *)
Definition blank_thresholded : picture :=
  {| reads := λ _ _ _, Ret []; rotations := [1%Z]; kernels := [BLUR];
     thresholded := true |}.

End Cases.

(** * Properties *)

(** ** The embedding on small inputs *)

Example split_ex :
  os_path.split "d/sub/a.jpg" = ("d/sub", "a.jpg")
  ∧ os_path.split "/a.jpg" = ("/", "a.jpg")
  ∧ os_path.split "a.jpg" = ("", "a.jpg")
  ∧ os_path.split "d//a" = ("d", "a").
Proof. repeat split; reflexivity. Qed.

Example join_ex :
  os_path.join "d/sub" "x.jpg" = "d/sub/x.jpg"
  ∧ os_path.join "" "x.jpg" = "x.jpg"
  ∧ os_path.join "/" "x.jpg" = "/x.jpg"
  ∧ os_path.join "d" "/x.jpg" = "/x.jpg".
Proof. repeat split; reflexivity. Qed.

Example splitext_ex :
  os_path.splitext "a.b.jpg" = ("a.b", ".jpg")
  ∧ os_path.splitext ".hidden" = (".hidden", "")
  ∧ os_path.splitext "..x.jpeg" = ("..x", ".jpeg")
  ∧ os_path.splitext "noext" = ("noext", "").
Proof. repeat split; reflexivity. Qed.

Example utf8_ascii :
  utf8.decode (list_byte_of_string "UMMZI123") = Ret "UMMZI123".
Proof. reflexivity. Qed.

Example utf8_invalid : utf8.decode [xff] = Raise UnicodeDecodeError.
Proof. reflexivity. Qed.

Example cli_all :
  FILTERS (cli_globals [180]%Z ["all"] false)
  = ["blur"; "smooth"; "detail"; "edges"; "sharpen"].
Proof. reflexivity. Qed.

(** ** Dictionaries *)

Section DictFacts.
Context {V : Type}.
Implicit Types (d : Dict.t V) (k : string) (v : V).

Lemma get_set_item_eq d k v : Dict.get (Dict.set_item d k v) k = Some v.
Proof.
  induction d as [|[k' v'] d IH]; simpl.
  - by rewrite String.eqb_refl.
  - destruct (String.eqb k' k) eqn:Hk; simpl; rewrite Hk; [done|apply IH].
Qed.

Lemma get_set_item_ne d k k' v :
  k ≠ k' → Dict.get (Dict.set_item d k v) k' = Dict.get d k'.
Proof.
  intros Hne. induction d as [|[k0 v0] d IH]; simpl.
  - by apply String.eqb_neq in Hne as ->.
  - destruct (String.eqb k0 k) eqn:Hk; simpl.
    + apply String.eqb_eq in Hk as ->.
      by apply String.eqb_neq in Hne as ->.
    + by rewrite IH.
Qed.

Lemma get_set_item d k k' v :
  Dict.get (Dict.set_item d k v) k'
  = if decide (k = k') then Some v else Dict.get d k'.
Proof.
  case_decide as Hk; [subst; apply get_set_item_eq|by apply get_set_item_ne].
Qed.

Lemma get_Some_elem_of d k v : Dict.get d k = Some v → (k, v) ∈ d.
Proof.
  induction d as [|[k' v'] d IH]; simpl; [done|].
  destruct (String.eqb k' k) eqn:Hk.
  - apply String.eqb_eq in Hk as ->. intros [= ->]. left.
  - intros. right. auto.
Qed.

Lemma get_None d k : Dict.get d k = None ↔ k ∉ Dict.keys d.
Proof.
  unfold Dict.keys. induction d as [|[k' v'] d IH]; csimpl.
  - split; [intros _; apply not_elem_of_nil|done].
  - rewrite not_elem_of_cons. destruct (String.eqb k' k) eqn:Hk.
    + apply String.eqb_eq in Hk as ->. split; [done|]. by intros [? _].
    + apply String.eqb_neq in Hk. rewrite IH. split; [|tauto].
      intros. split; [congruence|done].
Qed.

Lemma elem_of_get d k v :
  NoDup (Dict.keys d) → (k, v) ∈ d → Dict.get d k = Some v.
Proof.
  unfold Dict.keys. induction d as [|[k' v'] d IH]; csimpl.
  - intros _ ?%elem_of_nil. done.
  - intros [Hk' Hd]%NoDup_cons [[= -> ->]|Hin]%elem_of_cons.
    + by rewrite String.eqb_refl.
    + destruct (String.eqb k' k) eqn:Hk; [|auto].
      apply String.eqb_eq in Hk as ->. destruct Hk'.
      by apply (list_elem_of_fmap_2 fst) in Hin.
Qed.

Lemma elem_of_keys d k : k ∈ Dict.keys d ↔ is_Some (Dict.get d k).
Proof.
  rewrite <-not_eq_None_Some, get_None.
  destruct (decide (k ∈ Dict.keys d)); tauto.
Qed.

Lemma keys_set_item d k v :
  Dict.keys (Dict.set_item d k v)
  = if bool_decide (k ∈ Dict.keys d) then Dict.keys d
    else Dict.keys d ++ [k].
Proof.
  unfold Dict.keys. induction d as [|[k' v'] d IH]; csimpl; [done|].
  destruct (String.eqb k' k) eqn:Hk; csimpl.
  - apply String.eqb_eq in Hk as ->.
    rewrite bool_decide_eq_true_2; [done|left].
  - apply String.eqb_neq in Hk. rewrite IH.
    destruct (bool_decide (k ∈ d.*1)) eqn:Hd.
    + apply bool_decide_eq_true_1 in Hd.
      rewrite bool_decide_eq_true_2; [done|by right].
    + apply bool_decide_eq_false_1 in Hd.
      rewrite bool_decide_eq_false_2; [done|].
      rewrite not_elem_of_cons. split; [congruence|done].
Qed.

Lemma NoDup_keys_set_item d k v :
  NoDup (Dict.keys d) → NoDup (Dict.keys (Dict.set_item d k v)).
Proof.
  intros Hd. rewrite keys_set_item. case_bool_decide as Hk; [done|].
  apply NoDup_app. split_and!; [done| |apply NoDup_singleton].
  intros x Hx ->%list_elem_of_singleton. done.
Qed.

Lemma elem_of_keys_set_item d k k' v :
  k' ∈ Dict.keys (Dict.set_item d k v) ↔ k' = k ∨ k' ∈ Dict.keys d.
Proof.
  rewrite keys_set_item. case_bool_decide as Hk.
  - split; [auto|]. intros [->|?]; done.
  - rewrite elem_of_app, list_elem_of_singleton. tauto.
Qed.

Lemma get_set_items_other d l k :
  k ∉ l.*1 → Dict.get (Dict.set_items d l) k = Dict.get d k.
Proof.
  revert d. induction l as [|[k' v'] l IH]; intros d; csimpl; [done|].
  rewrite not_elem_of_cons. intros [Hne Hl].
  rewrite IH by done. by apply get_set_item_ne.
Qed.

Lemma get_set_items d l k v :
  NoDup l.*1 → (k, v) ∈ l → Dict.get (Dict.set_items d l) k = Some v.
Proof.
  revert d. induction l as [|[k' v'] l IH]; intros d; csimpl.
  - intros _ ?%elem_of_nil. done.
  - intros [Hk' Hl]%NoDup_cons [[= -> ->]|Hin]%elem_of_cons.
    + rewrite get_set_items_other by done. apply get_set_item_eq.
    + by apply IH.
Qed.

Lemma NoDup_keys_set_items d l :
  NoDup (Dict.keys d) → NoDup (Dict.keys (Dict.set_items d l)).
Proof.
  revert d. induction l as [|[k v] l IH]; intros d Hd; [done|].
  simpl. apply IH. by apply NoDup_keys_set_item.
Qed.

Lemma elem_of_keys_set_items d l k :
  k ∈ Dict.keys (Dict.set_items d l) ↔ k ∈ Dict.keys d ∨ k ∈ l.*1.
Proof.
  revert d. induction l as [|[k' v'] l IH]; intros d; csimpl.
  - rewrite elem_of_nil. tauto.
  - rewrite IH, elem_of_keys_set_item, elem_of_cons. tauto.
Qed.

Lemma set_items_app d l1 l2 :
  Dict.set_items d (l1 ++ l2) = Dict.set_items (Dict.set_items d l1) l2.
Proof.
  revert d. induction l1 as [|[k v] l1 IH]; intros d; simpl; [done|apply IH].
Qed.
End DictFacts.

(** ** Strings and paths *)

Section StrFacts.
Import Str.

Lemma chars_app s1 s2 : chars (s1 +:+ s2) = chars s1 ++ chars s2.
Proof. induction s1 as [|a s1 IH]; simpl; [done|by rewrite IH]. Qed.

Lemma chars_inj s1 s2 : chars s1 = chars s2 → s1 = s2.
Proof.
  intros Heq. rewrite <-(string_of_list_ascii_of_string s1),
    <-(string_of_list_ascii_of_string s2). by rewrite Heq.
Qed.

Lemma string_app_inj_r s1 s2 s : s1 +:+ s = s2 +:+ s → s1 = s2.
Proof.
  intros Heq%(f_equal chars). rewrite !chars_app in Heq.
  by apply app_inv_tail, chars_inj in Heq.
Qed.

Lemma string_app_assoc s1 s2 s3 : (s1 +:+ s2) +:+ s3 = s1 +:+ s2 +:+ s3.
Proof. apply chars_inj. by rewrite !chars_app, (assoc_L (++)). Qed.

Lemma contains_chars c s : contains c s = true ↔ c ∈ chars s.
Proof.
  induction s as [|a s IH]; simpl.
  - split; [done|by intros ?%elem_of_nil].
  - rewrite orb_true_iff, IH, elem_of_cons, Ascii.eqb_eq.
    split; (intros [?|?]; [left|right]); done.
Qed.

Lemma contains_false c s : contains c s = false ↔ c ∉ chars s.
Proof. rewrite <-contains_chars. by destruct (contains c s). Qed.

Lemma contains_app c s1 s2 :
  contains c (s1 +:+ s2) = contains c s1 || contains c s2.
Proof.
  induction s1 as [|a s1 IH]; simpl; [done|]. by rewrite IH, orb_assoc.
Qed.

Lemma rpartition_absent c s :
  contains c s = false → rpartition c s = ("", s).
Proof.
  induction s as [|a s IH]; simpl; [done|].
  intros [Ha Hs]%orb_false_iff. by rewrite IH, Ha.
Qed.

Lemma rpartition_last c x n :
  contains c n = false →
  rpartition c (x +:+ String c n) = (x +:+ String c "", n).
Proof.
  intros Hn. induction x as [|a x IH]; simpl.
  - by rewrite rpartition_absent, Ascii.eqb_refl.
  - rewrite IH. by destruct x.
Qed.

Lemma endswith_char_inv c s :
  endswith_char c s = true → ∃ x, s = x +:+ String c "".
Proof.
  induction s as [|a s IH]; simpl; [done|].
  destruct s as [|b s].
  - intros ->%Ascii.eqb_eq. by exists "".
  - intros [x ->]%IH. by exists (String a x).
Qed.

Lemma startswith_sep_contains n :
  startswith "/" n = true → contains sep n = true.
Proof.
  destruct n as [|a n]; [done|]. cbn [startswith contains].
  intros [Heq _]%andb_true_iff. by apply Ascii.eqb_eq in Heq as <-.
Qed.

Lemma basename_join d n :
  contains sep n = false → os_path.basename (os_path.join d n) = n.
Proof.
  intros Hn. unfold os_path.basename, os_path.join.
  destruct (startswith "/" n) eqn:Hs.
  { apply startswith_sep_contains in Hs. congruence. }
  destruct (String.eqb d "") eqn:Hd; simpl.
  { apply String.eqb_eq in Hd as ->. simpl. by rewrite rpartition_absent. }
  destruct (endswith_char sep d) eqn:He.
  - apply endswith_char_inv in He as [x ->].
    rewrite string_app_assoc.
    change (String sep "" +:+ n) with (String sep n).
    by rewrite rpartition_last.
  - change ("/" +:+ n) with (String sep n). by rewrite rpartition_last.
Qed.

(** The last occurrence of a character splits a list in one way only. *)
Lemma last_occurrence {A} (x : A) l1 r1 l2 r2 :
  x ∉ r1 → x ∉ r2 → l1 ++ x :: r1 = l2 ++ x :: r2 → l1 = l2 ∧ r1 = r2.
Proof.
  intros H1 H2. revert l2.
  induction l1 as [|a l1 IH]; intros [|b l2]; simpl; intros Heq.
  - by injection Heq.
  - injection Heq as ? ?; subst. destruct H1.
    apply elem_of_app. right. left.
  - injection Heq as ? ?; subst. destruct H2.
    apply elem_of_app. right. left.
  - injection Heq as -> Heq. by destruct (IH _ Heq) as [-> ->].
Qed.

Lemma pretty_N_char_digit x : digit (pretty_N_char x).
Proof. unfold pretty_N_char. repeat case_match; compute; eauto. Qed.

Lemma pretty_N_go_digits x s :
  Forall digit (chars s) → Forall digit (chars (pretty_N_go x s)).
Proof.
  revert s. induction (N.lt_wf_0 x) as [x _ IH]; intros s Hs.
  assert (x = 0 ∨ 0 < x)%N as [->|?] by lia.
  - by rewrite pretty_N_go_0.
  - rewrite pretty_N_go_step by done. apply IH.
    { by apply N.div_lt. }
    simpl. constructor; [apply pretty_N_char_digit|done].
Qed.

Lemma pretty_nat_digits (n : nat) : Forall digit (chars (pretty n)).
Proof.
  unfold pretty, pretty_nat, pretty, pretty_N.
  case_decide.
  - repeat constructor. compute; eauto.
  - apply pretty_N_go_digits. constructor.
Qed.

Lemma pretty_nat_lacks (c : ascii) (n : nat) :
  Ascii.is_nat c = None → c ∉ chars (pretty n).
Proof.
  intros Hc Hin. pose proof (pretty_nat_digits n) as Hd.
  rewrite Forall_forall in Hd. destruct (Hd _ Hin) as [? ?]. congruence.
Qed.
Lemma all_char_app c s1 s2 :
  all_char c (s1 +:+ s2) = all_char c s1 && all_char c s2.
Proof.
  induction s1 as [|a s1 IH]; simpl; [done|]. by rewrite IH, andb_assoc.
Qed.

Lemma all_char_endswith c s :
  all_char c s = true → s ≠ "" → endswith_char c s = true.
Proof.
  induction s as [|a s IH]; [done|]. simpl.
  intros [Ha Hs]%andb_true_iff _. destruct s as [|b s]; [done|].
  by apply IH.
Qed.

Lemma rstrip_empty c s : all_char c s = false → rstrip c s ≠ "".
Proof.
  induction s as [|a s IH]; simpl; [done|].
  intros Hs. destruct (rstrip c s) eqn:Hr; [|done].
  destruct (Ascii.eqb a c); [|done]. simpl in Hs. by apply IH in Hs.
Qed.

Lemma endswith_rstrip c s : endswith_char c (rstrip c s) = false.
Proof.
  induction s as [|a s IH]; simpl; [done|].
  destruct (rstrip c s) as [|b r] eqn:Hr.
  - by destruct (Ascii.eqb a c) eqn:Ha; simpl.
  - done.
Qed.

Lemma rstrip_app_char c s : rstrip c (s +:+ String c "") = rstrip c s.
Proof.
  induction s as [|a s IH]; simpl.
  - by rewrite Ascii.eqb_refl.
  - change (String a s +:+ String c "") with (String a (s +:+ String c "")).
    simpl. by rewrite IH.
Qed.

Lemma rstrip_id c s : endswith_char c s = false → rstrip c s = s.
Proof.
  induction s as [|a s IH]; simpl; [done|].
  destruct s as [|b s].
  - simpl. by intros ->.
  - intros Hs. by rewrite (IH Hs).
Qed.

(** A directory name is empty, made of separators only, or ends with
    something else than a separator. *)
Lemma dirname_shape f :
  os_path.dirname f = ""
  ∨ (all_char sep (os_path.dirname f) = true ∧ os_path.dirname f ≠ "")
  ∨ (endswith_char sep (os_path.dirname f) = false
     ∧ os_path.dirname f ≠ "").
Proof.
  unfold os_path.dirname, os_path.split.
  destruct (rpartition sep f) as [head tail]. simpl.
  destruct (String.eqb head "") eqn:Hh; simpl.
  { apply String.eqb_eq in Hh. by left. }
  apply String.eqb_neq in Hh.
  destruct (all_char sep head) eqn:Ha; simpl.
  - right; left. done.
  - right; right. split; [apply endswith_rstrip|by apply rstrip_empty].
Qed.

Lemma dirname_join f n :
  contains sep n = false →
  os_path.dirname (os_path.join (os_path.dirname f) n) = os_path.dirname f.
Proof.
  intros Hn. generalize (dirname_shape f).
  generalize (os_path.dirname f). intros d Hd.
  unfold os_path.join.
  destruct (startswith "/" n) eqn:Hs.
  { apply startswith_sep_contains in Hs. congruence. }
  unfold os_path.dirname, os_path.split.
  destruct Hd as [->|[[Ha Hne]|[He Hne]]].
  - simpl. by rewrite rpartition_absent.
  - apply String.eqb_neq in Hne as Hne'. rewrite Hne'.
    pose proof (all_char_endswith _ _ Ha Hne) as He. rewrite He. simpl.
    apply endswith_char_inv in He as [x ->].
    rewrite string_app_assoc.
    change (String sep "" +:+ n) with (String sep n).
    rewrite rpartition_last by done. simpl.
    apply String.eqb_neq in Hne as ->. by rewrite Ha.
  - apply String.eqb_neq in Hne as Hne'. rewrite Hne', He. simpl.
    change ("/" +:+ n) with (String sep n).
    rewrite rpartition_last by done. simpl.
    assert (String.eqb (d +:+ String sep "") "" = false) as ->.
    { apply String.eqb_neq. by destruct d. }
    assert (all_char sep (d +:+ String sep "") = false) as ->.
    { rewrite all_char_app.
      destruct (all_char sep d) eqn:Ha; [|done].
      by rewrite (all_char_endswith _ _ Ha Hne) in He. }
    simpl. by rewrite rstrip_app_char, rstrip_id.
Qed.

(** The joined path ends with the joined name. *)
Lemma join_suffix d n : ∃ before, os_path.join d n = before +:+ n.
Proof.
  unfold os_path.join. destruct (startswith "/" n).
  - by exists "".
  - destruct (String.eqb d "" || endswith_char sep d).
    + by exists d.
    + exists (d +:+ "/"). by rewrite string_app_assoc.
Qed.
End StrFacts.

(** ** The scan strategy *)

Section ScanFacts.
Context {FS Image : Type} `{!Imaging FS Image}.
Variable globals : config.
Variable fs : FS.

Lemma read_code_trace filename img :
  (read_code filename img).1 = [Decode img].
Proof. reflexivity. Qed.

(** What a decode attempt can end in. *)
Lemma read_code_cases filename img :
  (∃ code, (read_code filename img).2 = Ret (filename, code)
           ∧ first_payload img = Some code
           ∧ Str.startswith "UMMZI" code = true)
  ∨ ((read_code filename img).2 = Raise IndexError)
  ∨ (∃ e, (read_code filename img).2 = Raise e ∧ e ≠ IndexError
          ∧ no_valid_code img = false).
Proof.
  unfold read_code, first_payload, no_valid_code; simpl.
  destruct (pyzbar_decode img) as [[|q qs]|e]; simpl.
  - right; left; done.
  - destruct (utf8.decode (data q)) as [code|e]; simpl.
    + destruct (Str.startswith "UMMZI" code) eqn:Hp.
      * left; eauto.
      * right; left; done.
    + destruct (decide (e = IndexError)) as [->|]; [right; left; done|].
      right; right; eauto.
  - destruct (decide (e = IndexError)) as [->|]; [right; left; done|].
    right; right; eauto.
Qed.

Lemma read_code_no_valid_code filename img :
  no_valid_code img = true → (read_code filename img).2 = Raise IndexError.
Proof.
  unfold read_code, no_valid_code; simpl.
  destruct (pyzbar_decode img) as [[|q qs]|e]; simpl; try done.
  destruct (utf8.decode (data q)) as [code|e]; simpl; try done.
  by destruct (Str.startswith "UMMZI" code).
Qed.

Lemma read_code_accepted filename img code :
  first_payload img = Some code → Str.startswith "UMMZI" code = true →
  read_code filename img = ([Decode img], Ret (filename, code)).
Proof.
  unfold read_code, first_payload, tr_call; simpl.
  destruct (pyzbar_decode img) as [[|q qs]|e]; simpl; try done.
  destruct (utf8.decode (data q)) as [c|e]; simpl; try done.
  intros [= ->] ->. done.
Qed.

Lemma read_code_rejected filename img code :
  first_payload img = Some code → Str.startswith "UMMZI" code = false →
  read_code filename img = ([Decode img], Raise IndexError).
Proof.
  unfold read_code, first_payload, tr_call; simpl.
  destruct (pyzbar_decode img) as [[|q qs]|e]; simpl; try done.
  destruct (utf8.decode (data q)) as [c|e]; simpl; try done.
  intros [= ->] ->. done.
Qed.

(** One turn of the loop, by the outcome of its decode attempt. *)
Lemma transform_attempts_cons filename degrees filters rest :
  transform_attempts globals fs filename ((degrees, filters) :: rest)
  = let img := open_image globals fs filename degrees filters in
    match (read_code filename img).2 with
    | Raise IndexError =>
        after [OpenImage filename degrees filters; Decode img]
          (transform_attempts globals fs filename rest)
    | r => ([OpenImage filename degrees filters; Decode img], r)
    end.
Proof.
  cbn [transform_attempts].
  unfold mbind, traced_bind, tr_bind, tr_call, try_except_IndexError, after.
  set (img := open_image globals fs filename degrees filters).
  pose proof (read_code_trace filename img) as Ht.
  destruct (read_code filename img) as [t r]. cbn in Ht. subst t.
  cbn [app snd fst]. destruct r as [a|[]]; try done.
  by destruct (transform_attempts globals fs filename rest).
Qed.

Lemma qr_code_unfold filename :
  qr_code globals fs filename
  = match open_image globals fs filename default_rotate default_filter with
    | None => ([OpenImage filename default_rotate default_filter],
               Ret (fallback filename))
    | Some img =>
        match (read_code filename (Some img)).2 with
        | Raise IndexError =>
            after [OpenImage filename default_rotate default_filter;
                   Decode (Some img)]
              (transform_attempts globals fs filename
                 (product (ANGLES globals) (FILTERS globals)))
        | r => ([OpenImage filename default_rotate default_filter;
                 Decode (Some img)], r)
        end
    end.
Proof.
  unfold qr_code.
  unfold mbind, traced_bind, tr_bind, tr_call, try_except_IndexError, after.
  destruct (open_image globals fs filename default_rotate default_filter)
    as [img|]; [|done].
  pose proof (read_code_trace filename (Some img)) as Ht.
  destruct (read_code filename (Some img)) as [t r]. cbn in Ht. subst t.
  cbn [app snd fst]. destruct r as [a|[]]; try done.
  by destruct (transform_attempts _ _ _ _).
Qed.

Lemma transform_attempts_returns filename attempts f p :
  (transform_attempts globals fs filename attempts).2 = Ret (f, p) →
  f = filename
  ∧ (Str.startswith "UMMZI" p = true ∨ p = (fallback filename).2).
Proof.
  induction attempts as [|[degrees filters] rest IH].
  - simpl. intros [= <- <-]. auto.
  - rewrite transform_attempts_cons. cbv zeta.
    destruct (read_code_cases filename
                (open_image globals fs filename degrees filters))
      as [(code & -> & _ & Hp)|[->|(e & -> & Hne & _)]].
    + simpl. intros [= <- <-]. auto.
    + simpl. apply IH.
    + destruct e; done.
Qed.



(** When the direct attempt was not rejected, nothing else is tried. *)
Lemma direct_success_skips_transforms filename img code :
  open_image globals fs filename default_rotate default_filter = Some img →
  first_payload (Some img) = Some code →
  Str.startswith "UMMZI" code = true →
  qr_code globals fs filename
  = ([OpenImage filename default_rotate default_filter; Decode (Some img)],
     Ret (filename, code)).
Proof.
  intros Ho Hc Hp. rewrite qr_code_unfold, Ho.
  by rewrite (read_code_accepted _ _ _ Hc Hp).
Qed.

(** The first call into Pillow carries the defaults of [open_image]'s
    signature: a rotation by one degree and the blur filter. *)
Lemma first_open_uses_the_defaults filename :
  head (opened (qr_code globals fs filename).1) = Some (1%Z, "blur").
Proof.
  rewrite qr_code_unfold.
  destruct (open_image globals fs filename default_rotate default_filter)
    as [img|]; [|done].
  by destruct ((read_code filename (Some img)).2) as [?|[]].
Qed.

(** C7. A payload that does not start with [UMMZI] is never returned:
    what [qr_code] returns is the file with a payload of that prefix or
    with the fallback name; and an attempt that yields a payload without
    the prefix, direct or transformed, is followed by the next attempt. *)
Theorem invalid_prefix_is_rejected filename :
  (∀ t f p,
      qr_code globals fs filename = (t, Ret (f, p)) →
      f = filename
      ∧ (Str.startswith "UMMZI" p = true
         ∨ p = (os_path.splitext (os_path.basename filename)).1))
  ∧ (∀ img code,
        open_image globals fs filename default_rotate default_filter
        = Some img →
        first_payload (Some img) = Some code →
        Str.startswith "UMMZI" code = false →
        qr_code globals fs filename
        = after [OpenImage filename default_rotate default_filter;
                 Decode (Some img)]
            (transform_attempts globals fs filename
               (product (ANGLES globals) (FILTERS globals))))
  ∧ (∀ degrees filters rest code,
        first_payload (open_image globals fs filename degrees filters)
        = Some code →
        Str.startswith "UMMZI" code = false →
        transform_attempts globals fs filename ((degrees, filters) :: rest)
        = after [OpenImage filename degrees filters;
                 Decode (open_image globals fs filename degrees filters)]
            (transform_attempts globals fs filename rest)).
Proof.
  split; [|split].
  - intros t f p. rewrite qr_code_unfold.
    destruct (open_image globals fs filename default_rotate default_filter)
      as [img|].
    + destruct (read_code_cases filename (Some img))
        as [(code & -> & _ & Hp)|[->|(e & -> & Hne & _)]].
      * intros [= <- <- <-]. auto.
      * unfold after. intros [= <- Hr].
        by apply transform_attempts_returns in Hr.
      * by destruct e.
    + intros [= <- <- <-]. auto.
  - intros img code Ho Hc Hp. rewrite qr_code_unfold, Ho.
    by rewrite (read_code_rejected _ _ _ Hc Hp).
  - intros degrees filters rest code Hc Hp.
    rewrite transform_attempts_cons. cbv zeta.
    by rewrite (read_code_rejected _ _ _ Hc Hp).
Qed.



Lemma transform_attempts_caught filename degrees filters rest :
  (read_code filename (open_image globals fs filename degrees filters)).2
  = Raise IndexError →
  transform_attempts globals fs filename ((degrees, filters) :: rest)
  = after [OpenImage filename degrees filters;
           Decode (open_image globals fs filename degrees filters)]
      (transform_attempts globals fs filename rest).
Proof.
  intros Hr. rewrite transform_attempts_cons. cbv zeta. by rewrite Hr.
Qed.

Lemma transform_attempts_uncaught filename degrees filters rest e :
  (read_code filename (open_image globals fs filename degrees filters)).2
  = Raise e →
  e ≠ IndexError →
  (transform_attempts globals fs filename ((degrees, filters) :: rest)).2
  = Raise e.
Proof.
  intros Hr Hne. rewrite transform_attempts_cons. cbv zeta. rewrite Hr.
  by destruct e.
Qed.

Lemma qr_code_caught filename img :
  open_image globals fs filename default_rotate default_filter = Some img →
  (read_code filename (Some img)).2 = Raise IndexError →
  qr_code globals fs filename
  = after [OpenImage filename default_rotate default_filter;
           Decode (Some img)]
      (transform_attempts globals fs filename
         (product (ANGLES globals) (FILTERS globals))).
Proof. intros Ho Hr. by rewrite qr_code_unfold, Ho, Hr. Qed.

(** The attempts whose [IndexError] is caught are followed by the rest. *)
Lemma transform_attempts_app_caught filename before attempts :
  Forall (λ '(degrees, filters),
            (read_code filename
               (open_image globals fs filename degrees filters)).2
            = Raise IndexError) before →
  (transform_attempts globals fs filename (before ++ attempts)).2
  = (transform_attempts globals fs filename attempts).2.
Proof.
  induction 1 as [|[degrees filters] before Hhd _ IH]; [done|].
  rewrite <-app_comm_cons, transform_attempts_cons. cbv zeta.
  by rewrite Hhd.
Qed.

Lemma qr_code_all_caught filename img :
  open_image globals fs filename default_rotate default_filter = Some img →
  (read_code filename (Some img)).2 = Raise IndexError →
  Forall (λ '(degrees, filters),
            (read_code filename
               (open_image globals fs filename degrees filters)).2
            = Raise IndexError)
    (product (ANGLES globals) (FILTERS globals)) →
  (qr_code globals fs filename).2 = Ret (fallback filename).
Proof.
  intros Ho Hr Hall. rewrite qr_code_unfold, Ho, Hr. unfold after.
  cbn [snd].
  rewrite <-(app_nil_r (product _ _)).
  by rewrite (transform_attempts_app_caught _ _ [] Hall).
Qed.

Lemma qr_code_first_uncaught filename img before degrees filters rest e :
  open_image globals fs filename default_rotate default_filter = Some img →
  (read_code filename (Some img)).2 = Raise IndexError →
  product (ANGLES globals) (FILTERS globals)
  = before ++ (degrees, filters) :: rest →
  Forall (λ '(degrees, filters),
            (read_code filename
               (open_image globals fs filename degrees filters)).2
            = Raise IndexError) before →
  (read_code filename (open_image globals fs filename degrees filters)).2
  = Raise e →
  e ≠ IndexError →
  (qr_code globals fs filename).2 = Raise e.
Proof.
  intros Ho Hr Hprod Hbefore He Hne.
  rewrite qr_code_unfold, Ho, Hr, Hprod. unfold after. cbn [snd].
  rewrite (transform_attempts_app_caught _ _ _ Hbefore).
  rewrite transform_attempts_cons. cbv zeta. rewrite He. by destruct e.
Qed.

Lemma qr_code_uncaught filename img e :
  open_image globals fs filename default_rotate default_filter = Some img →
  (read_code filename (Some img)).2 = Raise e →
  e ≠ IndexError →
  (qr_code globals fs filename).2 = Raise e.
Proof.
  intros Ho Hr Hne. rewrite qr_code_unfold, Ho, Hr. by destruct e.
Qed.

End ScanFacts.

(** ** The collision resolver *)

Section EnumerateFacts.
Context {A : Type}.

Lemma enumerate_from_lookup (xs : list A) start i :
  enumerate_from start xs !! i = (λ x, (start + i, x)) <$> xs !! i.
Proof.
  revert start i. induction xs as [|x xs IH]; intros start [|i]; simpl;
    try done.
  - by rewrite Nat.add_0_r.
  - rewrite IH. by rewrite Nat.add_succ_r.
Qed.

Lemma enumerate_lookup (xs : list A) i :
  enumerate xs !! i = (λ x, (i, x)) <$> xs !! i.
Proof. apply enumerate_from_lookup. Qed.

Lemma enumerate_from_snd (xs : list A) start :
  (enumerate_from start xs).*2 = xs.
Proof.
  revert start. induction xs as [|x xs IH]; intros start; csimpl; [done|].
  by rewrite IH.
Qed.
End EnumerateFacts.

Lemma one_payload_per_path (results : list (string * string)) f q1 q2 :
  NoDup results.*1 → (f, q1) ∈ results → (f, q2) ∈ results → q1 = q2.
Proof.
  induction results as [|[f' q'] results IH]; csimpl.
  - by intros _ ?%elem_of_nil.
  - intros [Hf' Hpaths]%NoDup_cons H1 H2.
    apply elem_of_cons in H1 as [H1|H1], H2 as [H2|H2].
    + congruence.
    + destruct Hf'. injection H1 as <- <-.
      by apply (list_elem_of_fmap_2 fst) in H2.
    + destruct Hf'. injection H2 as <- <-.
      by apply (list_elem_of_fmap_2 fst) in H1.
    + by apply IH.
Qed.

Section ResolverFacts.
Context `{PySet}.

Lemma groups_of_step rev processed orig qr :
  groups_of rev processed →
  groups_of
    (Dict.set_item rev qr
       (set_add orig (default set_new (Dict.get rev qr))))
    (processed ++ [(orig, qr)]).
Proof.
  intros (Hkeys & Hmem & Hex). split_and!.
  - by apply NoDup_keys_set_item.
  - intros q files. rewrite get_set_item. case_decide as Hq.
    + subst q. intros [= <-].
      set (s0 := default set_new (Dict.get rev qr)).
      assert (NoDup (set_iter s0)
              ∧ ∀ f, f ∈ set_iter s0 ↔ (f, qr) ∈ processed) as [Hnd Hs0].
      { subst s0. destruct (Dict.get rev qr) as [s|] eqn:Hg; simpl.
        - by apply Hmem.
        - rewrite set_iter_new. split; [constructor|].
          intros f. split; [by intros ?%elem_of_nil|].
          intros [s Hs]%Hex. congruence. }
      pose proof (set_iter_add orig s0) as Hadd.
      split.
      * rewrite Hadd. case_bool_decide; [done|]. by constructor.
      * intros f. rewrite Hadd, elem_of_app, list_elem_of_singleton.
        case_bool_decide as Hin.
        -- rewrite Hs0. split; [auto|]. intros [?|[= -> ]]; [done|].
           by apply Hs0.
        -- rewrite elem_of_cons, Hs0. split.
           ++ intros [->|?]; auto.
           ++ intros [?|[= ->]]; auto.
    + intros Hg. destruct (Hmem _ _ Hg) as [Hnd Hf]. split; [done|].
      intros f. rewrite Hf, elem_of_app, list_elem_of_singleton.
      split; [auto|]. intros [?|[= _ ?]]; [done|congruence].
  - intros f q. rewrite elem_of_app, list_elem_of_singleton, get_set_item.
    case_decide; [eauto|]. intros [?|[= _ ?]]; [eauto|congruence].
Qed.

Lemma groups_of_foldl results rev processed :
  groups_of rev processed →
  groups_of
    (foldl (λ rev '(orig, qr),
              Dict.set_item rev qr
                (set_add orig (default set_new (Dict.get rev qr))))
       rev results)
    (processed ++ results).
Proof.
  revert rev processed.
  induction results as [|[orig qr] results IH]; intros rev processed Hinv.
  - by rewrite app_nil_r.
  - simpl. rewrite (assoc_L (++) processed [(orig, qr)] results : 
                      processed ++ (orig, qr) :: results = _).
    apply IH. by apply groups_of_step.
Qed.

Lemma find_duplicates_groups results :
  groups_of (_find_duplicates results) results.
Proof.
  apply (groups_of_foldl results [] []). split_and!.
  - constructor.
  - intros ?? [=].
  - intros ?? ?%elem_of_nil. done.
Qed.

Lemma assign_group_set_items mapping group :
  assign_group mapping group
  = Dict.set_items mapping (group_assignments group).
Proof.
  destruct group as [qr files]. unfold assign_group, group_assignments.
  generalize (enumerate (set_iter files)). intros l. revert mapping.
  induction l as [|[i f] l IH]; intros mapping; simpl; [done|apply IH].
Qed.

Lemma foldl_assign_group mapping groups :
  foldl assign_group mapping groups
  = Dict.set_items mapping (assignments groups).
Proof.
  revert mapping. induction groups as [|group groups IH]; intros mapping.
  - done.
  - unfold assignments. rewrite bind_cons, set_items_app. simpl.
    rewrite IH. by rewrite assign_group_set_items.
Qed.

Lemma file_mapping_assignments results :
  _file_mapping results
  = Dict.set_items [] (assignments (_find_duplicates results)).
Proof. apply foldl_assign_group. Qed.

Lemma group_assignments_keys group :
  (group_assignments group).*1 = set_iter group.2.
Proof.
  destruct group as [qr files]. unfold group_assignments, enumerate. simpl.
  generalize 0. induction (set_iter files) as [|f l IH]; intros n; csimpl;
    [done|]. by rewrite IH.
Qed.

Lemma elem_of_group_assignments qr files f t :
  (f, t) ∈ group_assignments (qr, files)
  ↔ ∃ i, set_iter files !! i = Some f ∧ t = target qr i f.
Proof.
  unfold group_assignments. rewrite list_elem_of_fmap. split.
  - intros ([i f'] & [= -> ->] & [j Hj]%list_elem_of_lookup).
    rewrite enumerate_lookup in Hj.
    destruct (set_iter files !! j) eqn:Hf; simplify_eq/=. eauto.
  - intros (i & Hi & ->). exists (i, f). split; [done|].
    apply list_elem_of_lookup. exists i. by rewrite enumerate_lookup, Hi.
Qed.

Lemma assignments_keys groups :
  (assignments groups).*1 = groups ≫= (λ group, set_iter group.2).
Proof.
  unfold assignments. induction groups as [|group groups IH]; [done|].
  rewrite !bind_cons, fmap_app, IH. by rewrite group_assignments_keys.
Qed.

Lemma NoDup_assignments_keys results :
  NoDup results.*1 →
  NoDup (assignments (_find_duplicates results)).*1.
Proof.
  intros Hpaths. rewrite assignments_keys.
  destruct (find_duplicates_groups results) as (Hkeys & Hmem & _).
  apply NoDup_bind.
  - intros [q1 s1] [q2 s2] f Hg1 Hg2 Hf1 Hf2; simpl in *.
    apply (elem_of_get _ _ _ Hkeys) in Hg1, Hg2.
    apply (Hmem _ _ Hg1) in Hf1. apply (Hmem _ _ Hg2) in Hf2.
    assert (q1 = q2) as <- by eauto using one_payload_per_path.
    congruence.
  - intros [q s] Hg. apply (elem_of_get _ _ _ Hkeys) in Hg.
    by apply (Hmem _ _ Hg).
  - by apply NoDup_fmap_1 with (f := fst).
Qed.

(** What the mapping holds for the member at position [i] of a group. *)
Lemma file_mapping_member results qr files i f :
  NoDup results.*1 →
  Dict.get (_find_duplicates results) qr = Some files →
  set_iter files !! i = Some f →
  Dict.get (_file_mapping results) f = Some (target qr i f).
Proof.
  intros Hpaths Hg Hi. rewrite file_mapping_assignments.
  apply get_set_items; [by apply NoDup_assignments_keys|].
  apply list_elem_of_bind. exists (qr, files). split.
  - apply elem_of_group_assignments. eauto.
  - by apply get_Some_elem_of.
Qed.

Lemma file_mapping_of_result results f qr :
  NoDup results.*1 → (f, qr) ∈ results →
  ∃ files i,
    Dict.get (_find_duplicates results) qr = Some files
    ∧ set_iter files !! i = Some f
    ∧ Dict.get (_file_mapping results) f = Some (target qr i f).
Proof.
  intros Hpaths Hin.
  destruct (find_duplicates_groups results) as (Hkeys & Hmem & Hex).
  destruct (Hex _ _ Hin) as [files Hg].
  destruct (Hmem _ _ Hg) as [_ Hf].
  apply Hf, list_elem_of_lookup in Hin as [i Hi].
  exists files, i. eauto using file_mapping_member.
Qed.

Lemma file_mapping_keys results f :
  f ∈ Dict.keys (_file_mapping results) ↔ f ∈ results.*1.
Proof.
  rewrite file_mapping_assignments, elem_of_keys_set_items, assignments_keys.
  destruct (find_duplicates_groups results) as (Hkeys & Hmem & Hex).
  rewrite list_elem_of_bind, list_elem_of_fmap. split.
  - intros [?%elem_of_nil|([q s] & Hf & Hg)]; [done|]. simpl in Hf.
    apply (elem_of_get _ _ _ Hkeys) in Hg. apply (Hmem _ _ Hg) in Hf.
    by exists (f, q).
  - intros ([f' q] & -> & Hin). right. simpl.
    destruct (Hex _ _ Hin) as [s Hg]. exists (q, s).
    split; [by apply (Hmem _ _ Hg)|by apply get_Some_elem_of].
Qed.

(** C10. For scan results in which each path occurs exactly once, the
    keys of the mapping are the input paths, each once: every scanned file
    has exactly one target path, and no other path is in the mapping. *)
Theorem mapping_keys_are_the_scanned_paths results :
  NoDup results.*1 →
  Dict.keys (_file_mapping results) ≡ₚ results.*1
  ∧ (∀ f, f ∈ results.*1 →
       ∃ t, ∀ t', Dict.get (_file_mapping results) f = Some t' ↔ t' = t)
  ∧ (∀ f, f ∉ results.*1 → Dict.get (_file_mapping results) f = None).
Proof.
  intros Hpaths. split_and!.
  - apply NoDup_Permutation; [|done|apply file_mapping_keys].
    rewrite file_mapping_assignments. apply NoDup_keys_set_items. constructor.
  - intros f [t Ht]%file_mapping_keys%elem_of_keys. exists t.
    intros t'. rewrite Ht. split; congruence.
  - intros f Hf. apply get_None. by rewrite file_mapping_keys.
Qed.
End ResolverFacts.

Section NameFacts.
Import Str.

Lemma copy_succ i :
  copy (S i) = String "_" ("copy" +:+ pretty (S i) +:+ ".jpg").
Proof. reflexivity. Qed.

Lemma copy_tail_lacks_underscore i :
  "_"%char ∉ chars ("copy" +:+ pretty (S i) +:+ ".jpg").
Proof.
  rewrite !chars_app, !elem_of_app. intros [Hc|[Hc|Hc]].
  - by apply contains_chars in Hc.
  - by apply pretty_nat_lacks in Hc.
  - by apply contains_chars in Hc.
Qed.

Lemma copy_lacks_sep i : contains sep (copy i) = false.
Proof.
  destruct i as [|i]; [done|]. unfold copy.
  rewrite !contains_app.
  assert (contains sep (pretty (S i)) = false) as ->; [|done].
  apply contains_false. intros Hc. by apply pretty_nat_lacks in Hc.
Qed.

Lemma copy_ends_jpg i : ∃ stem, copy i = stem +:+ ".jpg".
Proof.
  destruct i as [|i]; [by exists ""|].
  exists ("_copy" +:+ pretty (S i)). unfold copy.
  by rewrite string_app_assoc.
Qed.

Lemma copy_inj i j : copy i = copy j → i = j.
Proof.
  destruct i as [|i], j as [|j]; try done.
  unfold copy. intros Heq%(inj (String.app "_copy"))%string_app_inj_r.
  by apply (inj pretty) in Heq.
Qed.

(** Two payloads yield one file name only when they are equal, or when
    one is the other followed by [_copy{n}]. *)
Lemma same_name_cases q1 q2 i1 i2 :
  q1 +:+ copy i1 = q2 +:+ copy i2 →
  q1 = q2
  ∨ (∃ n, 1 ≤ n ∧ q1 = q2 +:+ "_copy" +:+ pretty n)
  ∨ (∃ n, 1 ≤ n ∧ q2 = q1 +:+ "_copy" +:+ pretty n).
Proof.
  destruct i1 as [|i1], i2 as [|i2].
  - intros ?%string_app_inj_r. auto.
  - unfold copy. rewrite <-!string_app_assoc. intros ->%string_app_inj_r.
    right; left. exists (S i2). rewrite string_app_assoc. split; [lia|done].
  - unfold copy. rewrite <-!string_app_assoc. intros <-%string_app_inj_r.
    right; right. exists (S i1). rewrite string_app_assoc. split; [lia|done].
  - rewrite !copy_succ.
    pose proof (copy_tail_lacks_underscore i1) as Hu1.
    pose proof (copy_tail_lacks_underscore i2) as Hu2.
    revert Hu1 Hu2.
    generalize ("copy" +:+ pretty (S i1) +:+ ".jpg").
    generalize ("copy" +:+ pretty (S i2) +:+ ".jpg").
    intros tail2 tail1 Hu1 Hu2 Heq%(f_equal chars).
    rewrite !chars_app in Heq. cbn [list_ascii_of_string] in Heq.
    apply last_occurrence in Heq as [?%chars_inj _]; auto.
Qed.
End NameFacts.

Section ResolverTheorems.
Context `{PySet}.

(** C2, as amended. For scan results with one entry per file, the group of a payload
    [qr] has an enumeration [files] without repetition, of its size [k],
    such that the mapping sends the member at position 0 to the bare
    [{qr}.jpg] and the member at each position [n] of 1..k-1 to
    [{qr}_copy{n}.jpg].  Every name is joined to the member's own directory
    and the target ends in [.jpg] whatever the source extension; when the
    payload has no path separator, the directory of the target is the
    directory of the file and its base name is that name.  The names of
    different positions differ. *)
Theorem group_gets_bare_name_and_copies results qr :
  NoDup results.*1 → qr ∈ results.*2 →
  ∃ files : list string,
    files ≠ []
    ∧ NoDup files
    ∧ (∀ f, f ∈ files ↔ (f, qr) ∈ results)
    ∧ (∀ i f, files !! i = Some f →
         let name := qr +:+ match i with
                            | 0 => ".jpg"
                            | S _ => "_copy" +:+ pretty i +:+ ".jpg"
                            end in
         let new := os_path.join (os_path.dirname f) name in
         Dict.get (_file_mapping results) f = Some new
         ∧ (∃ stem, new = stem +:+ ".jpg")
         ∧ (Str.contains "/" qr = false →
              os_path.dirname new = os_path.dirname f
              ∧ os_path.basename new = name))
    ∧ (∀ i j, qr +:+ copy i = qr +:+ copy j → i = j).
Proof.
  intros Hpaths ([f0 q] & -> & Hin)%list_elem_of_fmap. simpl.
  destruct (find_duplicates_groups results) as (Hkeys & Hmem & Hex).
  destruct (Hex _ _ Hin) as [files Hg].
  destruct (Hmem _ _ Hg) as [Hnd Hf].
  exists (set_iter files). split_and!; [|done|done| |].
  - intros Hnil. apply Hf in Hin. rewrite Hnil in Hin.
    by apply elem_of_nil in Hin.
  - intros i f Hi. cbv zeta.
    change (match i with
            | 0 => ".jpg"
            | S _ => "_copy" +:+ pretty i +:+ ".jpg"
            end) with (copy i).
    split_and!.
    + apply (file_mapping_member _ _ _ _ _ Hpaths Hg Hi).
    + destruct (join_suffix (os_path.dirname f) (q +:+ copy i))
        as [before ->].
      destruct (copy_ends_jpg i) as [stem ->].
      exists (before +:+ q +:+ stem). by rewrite !string_app_assoc.
    + intros Hq.
      assert (Str.contains Str.sep (q +:+ copy i) = false)
        by (by rewrite contains_app, copy_lacks_sep, orb_false_r).
      by rewrite dirname_join, basename_join.
  - intros i j Heq%(inj (String.app q)). by apply copy_inj.
Qed.

(** C6, as amended. For scan results with one entry per file, two files
    of different payload groups get different target paths, provided that
    neither payload contains the path separator and that neither payload
    is the other one followed by [_copy{n}] for some n of 1 or more. *)
Theorem groups_keep_apart results f1 q1 f2 q2 t1 t2 :
  NoDup results.*1 →
  (f1, q1) ∈ results → (f2, q2) ∈ results → q1 ≠ q2 →
  Str.contains "/" q1 = false → Str.contains "/" q2 = false →
  (∀ n, 1 ≤ n → q1 ≠ q2 +:+ "_copy" +:+ pretty n) →
  (∀ n, 1 ≤ n → q2 ≠ q1 +:+ "_copy" +:+ pretty n) →
  Dict.get (_file_mapping results) f1 = Some t1 →
  Dict.get (_file_mapping results) f2 = Some t2 →
  t1 ≠ t2.
Proof.
  intros Hpaths Hin1 Hin2 Hne Hs1 Hs2 Hc1 Hc2 Ht1 Ht2 Heq.
  destruct (file_mapping_of_result _ _ _ Hpaths Hin1)
    as (files1 & i1 & _ & _ & Hm1).
  destruct (file_mapping_of_result _ _ _ Hpaths Hin2)
    as (files2 & i2 & _ & _ & Hm2).
  rewrite Hm1 in Ht1. rewrite Hm2 in Ht2.
  injection Ht1 as <-. injection Ht2 as <-.
  apply (f_equal os_path.basename) in Heq. unfold target in Heq.
  rewrite !basename_join in Heq
    by (rewrite contains_app, copy_lacks_sep, orb_false_r; done).
  apply same_name_cases in Heq as [?|[(n & ? & ?)|(n & ? & ?)]];
    [done|by eapply Hc1|by eapply Hc2].
Qed.
End ResolverTheorems.

(** ** The driver *)

Section DriverFacts.
Context {FS Image : Type} `{!Imaging FS Image} `{!Posix FS}.
Context `{!PySet} `{!Scheduling}.
Variable globals : config.

Lemma mapM_raises {A B} (f : A → result exception B) l x e :
  x ∈ l → f x = Raise e → ∃ e', mapM f l = Raise e'.
Proof.
  induction 1 as [x l|x y l _ IH]; intros Hx; simpl.
  - rewrite Hx. eauto.
  - destruct (f y); simpl; [|eauto].
    destruct (IH Hx) as [e' ->]. eauto.
Qed.

Lemma get_qr_codes_empty fs directory :
  find_images fs directory = ∅ →
  get_qr_codes globals fs directory
  = Raise (SystemExit (abort_message directory)).
Proof. unfold get_qr_codes. intros ->. done. Qed.

Lemma get_qr_codes_raises fs directory filename e :
  filename ∈ find_images fs directory →
  (qr_code globals fs filename).2 = Raise e →
  ∃ e', get_qr_codes globals fs directory = Raise (Uncaught e').
Proof.
  intros Hin Hr. unfold get_qr_codes.
  case_bool_decide as Hsz.
  { apply size_empty_inv in Hsz. apply Hsz in Hin. by apply elem_of_empty in Hin. }
  destruct (mapM_raises (λ img, (qr_code globals fs img).2)
              (completed_order (elements (find_images fs directory)))
              filename e) as [e' ->]; [|done|by eauto].
  rewrite completed_order_perm. by apply elem_of_elements.
Qed.

Lemma main_loop_app fs before dirs :
  main_loop globals fs (before ++ dirs)
  = match main_loop globals fs before with
    | (log, fs', Ret _) =>
        let '(log', fs'', r) := main_loop globals fs' dirs in
        (log ++ log', fs'', r)
    | stopped => stopped
    end.
Proof.
  revert fs. induction before as [|directory before IH]; intros fs; simpl.
  - by destruct (main_loop globals fs dirs) as [[??]?].
  - destruct (get_qr_codes globals fs directory) as [results|e]; [|done].
    destruct (gather_renames fs _) as [fs' [[]|e]]; [|done].
    rewrite IH.
    destruct (main_loop globals fs' before) as [[log fs''] [[]|e]]; [|done].
    by destruct (main_loop globals fs'' dirs) as [[??]?].
Qed.

(** C4, as amended. An [IndexError] raised by a decode attempt (nothing
    decoded, or a payload without the prefix) is caught, in the direct
    attempt as in the loop: the scan goes on with the next attempt and
    returns the fallback when none is left, so that a scan all of whose
    attempts raise [IndexError] returns the fallback.  Any other exception
    of a decode attempt is not caught: the first one, after attempts whose
    [IndexError] was caught, leaves [qr_code] and, when the results of the
    batch are read, [get_qr_codes]. *)
Theorem only_IndexError_is_caught fs filename :
  (∀ img,
      open_image globals fs filename default_rotate default_filter
      = Some img →
      (read_code filename (Some img)).2 = Raise IndexError →
      qr_code globals fs filename
      = after [OpenImage filename default_rotate default_filter;
               Decode (Some img)]
          (transform_attempts globals fs filename
             (product (ANGLES globals) (FILTERS globals))))
  ∧ (∀ degrees filters rest,
      (read_code filename
         (open_image globals fs filename degrees filters)).2
      = Raise IndexError →
      transform_attempts globals fs filename ((degrees, filters) :: rest)
      = after [OpenImage filename degrees filters;
               Decode (open_image globals fs filename degrees filters)]
          (transform_attempts globals fs filename rest))
  ∧ transform_attempts globals fs filename []
    = ([], Ret (filename, (os_path.splitext (os_path.basename filename)).1))
  ∧ (∀ img e,
        open_image globals fs filename default_rotate default_filter
        = Some img →
        (read_code filename (Some img)).2 = Raise e →
        e ≠ IndexError →
        (qr_code globals fs filename).2 = Raise e)
  ∧ (∀ degrees filters rest e,
        (read_code filename
           (open_image globals fs filename degrees filters)).2 = Raise e →
        e ≠ IndexError →
        (transform_attempts globals fs filename
           ((degrees, filters) :: rest)).2 = Raise e)
  ∧ (∀ img,
        open_image globals fs filename default_rotate default_filter
        = Some img →
        (read_code filename (Some img)).2 = Raise IndexError →
        Forall (λ '(degrees, filters),
                  (read_code filename
                     (open_image globals fs filename degrees filters)).2
                  = Raise IndexError)
          (product (ANGLES globals) (FILTERS globals)) →
        (qr_code globals fs filename).2
        = Ret (filename, (os_path.splitext (os_path.basename filename)).1))
  ∧ (∀ img before degrees filters rest e,
        open_image globals fs filename default_rotate default_filter
        = Some img →
        (read_code filename (Some img)).2 = Raise IndexError →
        product (ANGLES globals) (FILTERS globals)
        = before ++ (degrees, filters) :: rest →
        Forall (λ '(degrees, filters),
                  (read_code filename
                     (open_image globals fs filename degrees filters)).2
                  = Raise IndexError) before →
        (read_code filename
           (open_image globals fs filename degrees filters)).2 = Raise e →
        e ≠ IndexError →
        (qr_code globals fs filename).2 = Raise e)
  ∧ (∀ directory e,
        filename ∈ find_images fs directory →
        (qr_code globals fs filename).2 = Raise e →
        ∃ e', get_qr_codes globals fs directory = Raise (Uncaught e')).
Proof.
  split_and!;
    eauto using qr_code_caught, transform_attempts_caught,
      transform_attempts_uncaught, qr_code_uncaught, qr_code_all_caught,
      qr_code_first_uncaught, get_qr_codes_raises.
Qed.

(** Without a worker the thread pool is not built, and nothing runs. *)
Lemma main_without_workers fs dirs workers :
  (workers ≤ 0)%Z →
  main globals fs dirs workers = ([], fs, Raise (Uncaught ValueError)).
Proof. intros Hw. unfold main. by apply Z.leb_le in Hw as ->. Qed.

(** C9. When the directories before it have gone through their scan and
    rename cycle and a directory then has no matching image, the run ends
    there with [SystemExit] and a message that names the directory: the
    directories after it are not processed and the files are left as the
    earlier directories left them. *)
Theorem empty_directory_aborts fs before directory remaining workers fs' :
  main globals fs before workers = (before, fs', Ret ()) →
  find_images fs' directory = ∅ →
  main globals fs (before ++ directory :: remaining) workers
  = (before, fs',
     Raise (SystemExit
              ("No unscanned images detected in " +:+ directory
               +:+ " - Aborting"))).
Proof.
  unfold main. intros Hbefore Hempty.
  destruct (workers <=? 0)%Z; [done|].
  rewrite main_loop_app, Hbefore. cbn [main_loop].
  rewrite (get_qr_codes_empty _ _ Hempty). by rewrite app_nil_r.
Qed.

End DriverFacts.


(** ** The model at work: evaluations, instances and counterexamples *)

Section Concrete.
Import Lab.

(** C1. The comment in [qr_code] announces a first scan of the
    unadulterated image, but [open_image(filename)] runs with the defaults
    [rotate=1] and [filter="blur"]: on a picture whose label is readable
    only as it was taken, the first image decoded is the one turned by one
    degree and blurred, the untransformed picture is never among the
    attempts, and the scan ends with the fallback name. *)
Theorem direct_attempt_is_rotated_and_blurred :
  let r := qr_code cli_defaults label_only_untransformed "d/a.jpg" in
  opened r.1
  = [(1, "blur"); (180, "blur"); (90, "blur"); (270, "blur"); (10, "blur");
     (170, "blur"); (75, "blur"); (340, "blur")]%Z
  ∧ (λ img : option picture, (rotations <$> img, kernels <$> img))
    <$> head (decoded r.1)
    = Some (Some [1%Z], Some [BLUR])
  ∧ r.2 = Ret ("d/a.jpg", "a").
Proof. repeat split; reflexivity. Qed.

(** C5. [decode(img)] is called without a symbology filter and the first
    code is taken whatever its kind: the payload of a Code 128 barcode
    that starts with the marker is returned as the QR code of the file. *)
Theorem other_symbology_is_accepted :
  type (barcode "UMMZI42") = "CODE128"
  ∧ (qr_code cli_defaults barcode_only "d/a.jpg").2
    = Ret ("d/a.jpg", "UMMZI42").
Proof. split; reflexivity. Qed.

(** C3. The docstring of [find_images] excludes the files whose name
    starts with [UMMZI], but only [UMMZI*.jpg] and [UMMZI*.JPG] are
    subtracted: in a directory of marker-prefixed files, the [.jpeg] one
    is discovered. *)
Theorem marker_prefixed_jpeg_is_discovered :
  find_images already_renamed "d" = {["d/UMMZI1.jpeg"]}.
Proof. vm_compute. reflexivity. Qed.

(** [*.JEPG] stands where [*.JPEG] was meant: an upper-case [.JPEG] file is
    not discovered. *)
Lemma upper_case_jpeg_is_missed : find_images upper_case_jpeg "d" = ∅.
Proof. vm_compute. reflexivity. Qed.

(** Counterexample to C4: the bytes of the code are not UTF-8, the
    [UnicodeDecodeError] is no [IndexError], so it leaves [qr_code] and
    ends the whole batch of the directory, good file included. *)
Lemma undecodable_payload_aborts_the_batch :
  (qr_code cli_defaults binary_payload "d/b.jpg").2
  = Raise UnicodeDecodeError
  ∧ (qr_code cli_defaults binary_payload "d/a.jpg").2
    = Ret ("d/a.jpg", "UMMZI1")
  ∧ get_qr_codes cli_defaults binary_payload "d"
    = Raise (Uncaught UnicodeDecodeError)
  ∧ main cli_defaults binary_payload ["d"] 4
    = ([], binary_payload, Raise (Uncaught UnicodeDecodeError)).
Proof. repeat split; reflexivity. Qed.

(** The decode attempts of a picture without a code are caught one after
    the other, the direct one first; the [UnicodeDecodeError] of a code
    that is not UTF-8 leaves the direct attempt, a transform attempt and
    the batch. *)
Lemma only_IndexError_is_caught_witness :
  qr_code cli_defaults nothing_to_read "d/a.jpg"
  = after [OpenImage "d/a.jpg" 1 "blur";
           Decode (open_image cli_defaults nothing_to_read "d/a.jpg" 1
                     "blur")]
      (transform_attempts cli_defaults nothing_to_read "d/a.jpg"
         (product (ANGLES cli_defaults) (FILTERS cli_defaults)))
  ∧ transform_attempts cli_defaults nothing_to_read "d/a.jpg"
      [(180%Z, "blur"); (90%Z, "blur")]
    = after [OpenImage "d/a.jpg" 180 "blur";
             Decode (open_image cli_defaults nothing_to_read "d/a.jpg" 180
                       "blur")]
        (transform_attempts cli_defaults nothing_to_read "d/a.jpg"
           [(90%Z, "blur")])
  ∧ (qr_code cli_defaults nothing_to_read "d/a.jpg").2 = Ret ("d/a.jpg", "a")
  ∧ (qr_code cli_defaults binary_payload "d/b.jpg").2
    = Raise UnicodeDecodeError
  ∧ (transform_attempts cli_defaults binary_payload "d/b.jpg"
       [(180%Z, "blur")]).2
    = Raise UnicodeDecodeError
  ∧ ∃ e, get_qr_codes cli_defaults binary_payload "d" = Raise (Uncaught e).
Proof.
  destruct (only_IndexError_is_caught cli_defaults nothing_to_read "d/a.jpg")
    as (Hdirect & Hloop & _).
  destruct (only_IndexError_is_caught cli_defaults binary_payload "d/b.jpg")
    as (_ & _ & _ & Hdirect' & Hloop' & _ & _ & Hbatch).
  split_and!.
  - eapply Hdirect; reflexivity.
  - apply Hloop. reflexivity.
  - reflexivity.
  - eapply Hdirect'; [reflexivity|reflexivity|discriminate].
  - apply Hloop'; [reflexivity|discriminate].
  - apply (Hbatch "d" UnicodeDecodeError); [|reflexivity].
    vm_compute. reflexivity.
Defined.

(** A label misread as [GARBAGE] until the picture is turned by 90
    degrees: the misreadings are passed over and [UMMZI7] is returned. *)
Lemma invalid_prefix_is_rejected_witness :
  (qr_code cli_defaults sideways "d/a.jpg").2 = Ret ("d/a.jpg", "UMMZI7")
  ∧ Str.startswith "UMMZI" "UMMZI7" = true
  ∧ qr_code cli_defaults sideways "d/a.jpg"
    = after [OpenImage "d/a.jpg" 1 "blur";
             Decode (open_image cli_defaults sideways "d/a.jpg" 1 "blur")]
        (transform_attempts cli_defaults sideways "d/a.jpg"
           (product (ANGLES cli_defaults) (FILTERS cli_defaults)))
  ∧ transform_attempts cli_defaults sideways "d/a.jpg"
      [(180%Z, "blur"); (90%Z, "blur")]
    = after [OpenImage "d/a.jpg" 180 "blur";
             Decode (open_image cli_defaults sideways "d/a.jpg" 180 "blur")]
        (transform_attempts cli_defaults sideways "d/a.jpg"
           [(90%Z, "blur")]).
Proof.
  destruct (invalid_prefix_is_rejected cli_defaults sideways "d/a.jpg")
    as (Hreturned & Hdirect & Hloop).
  split_and!.
  - reflexivity.
  - destruct (Hreturned (qr_code cli_defaults sideways "d/a.jpg").1
                "d/a.jpg" "UMMZI7") as [_ [Hp|Hf]];
      [reflexivity|exact Hp|discriminate Hf].
  - eapply (Hdirect _ "GARBAGE"); reflexivity.
  - apply (Hloop 180%Z "blur" [(90%Z, "blur")] "GARBAGE"); reflexivity.
Defined.



(** [d] is scanned and renamed, [e] has no image: the run ends there and
    [f] is left as it was. *)
Lemma empty_directory_aborts_witness :
  let fs' := (main cli_defaults two_directories ["d"] 4).1.2 in
  main cli_defaults two_directories ["d"] 4 = (["d"], fs', Ret ())
  ∧ find_images fs' "e" = ∅
  ∧ main cli_defaults two_directories (["d"] ++ "e" :: ["f"]) 4
    = (["d"], fs',
       Raise (SystemExit "No unscanned images detected in e - Aborting"))
  ∧ lookup_file fs' "f/b.jpg" = lookup_file two_directories "f/b.jpg".
Proof.
  intros fs'.
  assert (Hbefore : main cli_defaults two_directories ["d"] 4
                    = (["d"], fs', Ret ())) by reflexivity.
  assert (Hempty : find_images fs' "e" = ∅) by (vm_compute; reflexivity).
  split_and!; [exact Hbefore|exact Hempty| |reflexivity].
  exact (empty_directory_aborts cli_defaults two_directories ["d"] "e"
           ["f"] 4 fs' Hbefore Hempty).
Defined.

(** Counterexample to C2: the text [UMMZI/1] has the prefix, so the scan
    returns it; its name is joined to the directory of the file as it is,
    and the target lies in [d/UMMZI], not in the directory [d] of the
    file. *)
Lemma payload_with_separator_leaves_the_directory :
  get_qr_codes cli_defaults separator_in_label "d"
  = Ret [("d/a.jpg", "UMMZI/1")]
  ∧ _file_mapping [("d/a.jpg", "UMMZI/1")] = [("d/a.jpg", "d/UMMZI/1.jpg")]
  ∧ os_path.dirname "d/UMMZI/1.jpg" = "d/UMMZI"
  ∧ os_path.dirname "d/a.jpg" = "d".
Proof. repeat split; reflexivity. Qed.

(** Three files with the payload [UMMZI1], in two directories and with
    three spellings of the extension. *)
Lemma group_gets_bare_name_and_copies_witness :
  NoDup three_of_a_kind.*1
  ∧ "UMMZI1" ∈ three_of_a_kind.*2
  ∧ _file_mapping three_of_a_kind
    = [("d/a.jpg", "d/UMMZI1.jpg"); ("e/b.JPG", "e/UMMZI1_copy1.jpg");
       ("d/c.jpeg", "d/UMMZI1_copy2.jpg"); ("d/x.jpg", "d/x.jpg")]
  ∧ ∃ files : list string,
      files ≠ []
      ∧ NoDup files
      ∧ (∀ f, f ∈ files ↔ (f, "UMMZI1") ∈ three_of_a_kind)
      ∧ (∀ i f, files !! i = Some f →
           let name := "UMMZI1" +:+ match i with
                                    | 0 => ".jpg"
                                    | S _ => "_copy" +:+ pretty i +:+ ".jpg"
                                    end in
           let new := os_path.join (os_path.dirname f) name in
           Dict.get (_file_mapping three_of_a_kind) f = Some new
           ∧ (∃ stem, new = stem +:+ ".jpg")
           ∧ (Str.contains "/" "UMMZI1" = false →
                os_path.dirname new = os_path.dirname f
                ∧ os_path.basename new = name))
      ∧ (∀ i j, "UMMZI1" +:+ copy i = "UMMZI1" +:+ copy j → i = j).
Proof.
  assert (Hpaths : NoDup three_of_a_kind.*1) by compute_done.
  assert (Hqr : "UMMZI1" ∈ three_of_a_kind.*2) by compute_done.
  split_and!; [exact Hpaths|exact Hqr|reflexivity|].
  exact (group_gets_bare_name_and_copies three_of_a_kind "UMMZI1"
           Hpaths Hqr).
Defined.

(** The four scanned paths are the keys; another path has no target. *)
Lemma mapping_keys_are_the_scanned_paths_witness :
  NoDup three_of_a_kind.*1
  ∧ Dict.keys (_file_mapping three_of_a_kind) ≡ₚ three_of_a_kind.*1
  ∧ Dict.get (_file_mapping three_of_a_kind) "d/other.jpg" = None.
Proof.
  assert (Hpaths : NoDup three_of_a_kind.*1) by compute_done.
  destruct (mapping_keys_are_the_scanned_paths three_of_a_kind Hpaths)
    as (Hkeys & _ & Hout).
  split_and!; [exact Hpaths|exact Hkeys|].
  apply Hout. compute_done.
Defined.

(** Counterexample to C6: three pictures without a code in one directory.
    The groups are keyed by the fallback names [a] (two files) and
    [a_copy1] (one file); the second member of the first group and the
    only member of the second get the same target. *)
Lemma copy_name_meets_another_group :
  get_qr_codes cli_defaults unscannable "d"
  = Ret [("d/a_copy1.jpg", "a_copy1"); ("d/a.jpg", "a"); ("d/a.jpeg", "a")]
  ∧ Dict.get
      (_file_mapping
         [("d/a_copy1.jpg", "a_copy1"); ("d/a.jpg", "a"); ("d/a.jpeg", "a")])
      "d/a.jpeg" = Some "d/a_copy1.jpg"
  ∧ Dict.get
      (_file_mapping
         [("d/a_copy1.jpg", "a_copy1"); ("d/a.jpg", "a"); ("d/a.jpeg", "a")])
      "d/a_copy1.jpg" = Some "d/a_copy1.jpg".
Proof. repeat split; reflexivity. Qed.

(** The same collision, whatever the order in which the sets iterate. *)
Lemma any_iteration_order_collides `{PySet} :
  let results :=
    [("d/a_copy1.jpg", "a_copy1"); ("d/a.jpg", "a"); ("d/a.jpeg", "a")] in
  ∃ f, (f, "a") ∈ results
       ∧ Dict.get (_file_mapping results) f = Some "d/a_copy1.jpg"
       ∧ Dict.get (_file_mapping results) "d/a_copy1.jpg"
         = Some "d/a_copy1.jpg".
Proof.
  intros results.
  assert (Hpaths : NoDup results.*1) by compute_done.
  destruct (find_duplicates_groups results) as (_ & Hmem & Hex).
  destruct (Hex "d/a.jpg" "a") as [pair Hpair]; [compute_done|].
  destruct (Hex "d/a_copy1.jpg" "a_copy1") as [single Hsingle];
    [compute_done|].
  destruct (Hmem _ _ Hpair) as [Hnd2 Hin2].
  destruct (Hmem _ _ Hsingle) as [Hnd1 Hin1].
  assert (set_iter pair ≡ₚ ["d/a.jpg"; "d/a.jpeg"]) as Hperm2.
  { apply NoDup_Permutation; [done|compute_done|].
    intros f. rewrite Hin2. unfold results.
    rewrite !elem_of_cons, !elem_of_nil. split.
    - intros [[=]|[[= ->]|[[= ->]|[]]]]; auto.
    - intros [->|[->|[]]]; auto. }
  assert (set_iter single ≡ₚ ["d/a_copy1.jpg"]) as Hperm1.
  { apply NoDup_Permutation; [done|compute_done|].
    intros f. rewrite Hin1. unfold results.
    rewrite !elem_of_cons, !elem_of_nil. split.
    - intros [[= ->]|[[=]|[[=]|[]]]]; auto.
    - intros [->|[]]; auto. }
  apply Permutation_singleton_r in Hperm1.
  destruct (set_iter pair) as [|f0 [|f1 [|]]] eqn:Hiter;
    try (apply Permutation_length in Hperm2; discriminate Hperm2).
  assert (f1 ∈ ["d/a.jpg"; "d/a.jpeg"]) as Hf1
    by (rewrite <-Hperm2; repeat constructor).
  exists f1. split_and!.
  - apply Hin2. repeat constructor.
  - rewrite (file_mapping_member results "a" pair 1 f1 Hpaths Hpair)
      by (by rewrite Hiter).
    apply elem_of_cons in Hf1 as [->|Hf1]; [done|].
    apply list_elem_of_singleton in Hf1 as ->. done.
  - rewrite (file_mapping_member results "a_copy1" single 0 "d/a_copy1.jpg"
               Hpaths Hsingle) by (by rewrite Hperm1).
    done.
Qed.

(** A payload with a path separator reaches into another directory. *)
Example separator_in_payload_collides :
  _file_mapping [("d/UMMZI/1.jpg", "1"); ("d/q.jpg", "UMMZI/1")]
  = [("d/UMMZI/1.jpg", "d/UMMZI/1.jpg"); ("d/q.jpg", "d/UMMZI/1.jpg")].
Proof. reflexivity. Qed.

(** The groups [UMMZI1] and [x] of the same results keep apart. *)
Lemma groups_keep_apart_witness :
  NoDup three_of_a_kind.*1
  ∧ ("e/b.JPG", "UMMZI1") ∈ three_of_a_kind
  ∧ ("d/x.jpg", "x") ∈ three_of_a_kind
  ∧ "UMMZI1" ≠ "x"
  ∧ (∀ n, 1 ≤ n → "UMMZI1" ≠ "x" +:+ "_copy" +:+ pretty n)
  ∧ (∀ n, 1 ≤ n → "x" ≠ "UMMZI1" +:+ "_copy" +:+ pretty n)
  ∧ "e/UMMZI1_copy1.jpg" ≠ "d/x.jpg".
Proof.
  assert (Hpaths : NoDup three_of_a_kind.*1) by compute_done.
  assert (H1 : ("e/b.JPG", "UMMZI1") ∈ three_of_a_kind) by compute_done.
  assert (H2 : ("d/x.jpg", "x") ∈ three_of_a_kind) by compute_done.
  assert (Hne : "UMMZI1" ≠ "x") by discriminate.
  assert (Hc1 : ∀ n, 1 ≤ n → "UMMZI1" ≠ "x" +:+ "_copy" +:+ pretty n)
    by (intros n _; discriminate).
  assert (Hc2 : ∀ n, 1 ≤ n → "x" ≠ "UMMZI1" +:+ "_copy" +:+ pretty n)
    by (intros n _; discriminate).
  split_and!; try assumption.
  exact (groups_keep_apart three_of_a_kind "e/b.JPG" "UMMZI1" "d/x.jpg" "x"
           "e/UMMZI1_copy1.jpg" "d/x.jpg" Hpaths H1 H2 Hne eq_refl eq_refl
           Hc1 Hc2 eq_refl eq_refl).
Defined.

End Concrete.

(** * Further properties of the code *)

(** ** The scan strategy, further *)

Section MoreStrFacts.
Import Str.

Lemma rpartition_tail_lacks c s : contains c (rpartition c s).2 = false.
Proof.
  induction s as [|a s IH]; simpl; [done|].
  destruct (rpartition c s) as [[|b h] t]; simpl in *.
  - destruct (Ascii.eqb a c) eqn:Ha; simpl; [done|]. by rewrite Ha.
  - done.
Qed.

Lemma rpartition_app c s : (rpartition c s).1 +:+ (rpartition c s).2 = s.
Proof.
  induction s as [|a s IH]; simpl; [done|].
  destruct (rpartition c s) as [[|b h] t]; simpl in *.
  - destruct (Ascii.eqb a c); simpl; by rewrite <-IH.
  - by rewrite <-IH.
Qed.

Lemma rsplit_at_app c s h t : rsplit_at c s = Some (h, t) → s = h +:+ t.
Proof.
  revert h t. induction s as [|a s IH]; intros h t; simpl; [done|].
  destruct (rsplit_at c s) as [[h' t']|].
  - intros [= <- <-]. by rewrite (IH h' t' eq_refl).
  - destruct (Ascii.eqb a c); [|done]. by intros [= <- <-].
Qed.

(** [splitext] cuts its argument in two. *)
Lemma splitext_app p : (os_path.splitext p).1 +:+ (os_path.splitext p).2 = p.
Proof.
  unfold os_path.splitext.
  pose proof (rpartition_app sep p) as Hp.
  destruct (rpartition sep p) as [head tail]; simpl in Hp.
  destruct (rsplit_at extsep tail) as [[stem ext]|] eqn:Hs; simpl.
  - destruct (all_char extsep stem); simpl.
    + apply chars_inj. by rewrite chars_app, app_nil_r.
    + apply rsplit_at_app in Hs. rewrite string_app_assoc. by rewrite <-Hs.
  - apply chars_inj. by rewrite chars_app, app_nil_r.
Qed.

Lemma basename_lacks_sep f : contains sep (os_path.basename f) = false.
Proof. apply rpartition_tail_lacks. Qed.
End MoreStrFacts.

Section MoreScanFacts.
Context {FS Image : Type} `{!Imaging FS Image}.
Variable globals : config.
Variable fs : FS.

Lemma product_length {A B} (xs : list A) (ys : list B) :
  length (product xs ys) = length xs * length ys.
Proof.
  assert (∀ x : A, length (ys ≫= λ y, [(x, y)]) = length ys) as Hrow.
  { intros x. induction ys as [|y ys IHy]; csimpl; [done|]. by rewrite IHy. }
  unfold product. induction xs as [|x xs IH]; csimpl; [done|].
  by rewrite length_app, IH, Hrow.
Qed.

Lemma opened_app (t1 t2 : list (event Image)) :
  opened (t1 ++ t2) = opened t1 ++ opened t2.
Proof. apply omap_app. Qed.

Lemma decoded_app (t1 t2 : list (event Image)) :
  decoded (t1 ++ t2) = decoded t1 ++ decoded t2.
Proof. apply omap_app. Qed.

Lemma transform_attempts_in_order filename attempts :
  opened (transform_attempts globals fs filename attempts).1
    `prefix_of` attempts
  ∧ length (decoded (transform_attempts globals fs filename attempts).1)
    = length (opened (transform_attempts globals fs filename attempts).1).
Proof.
  induction attempts as [|[degrees filters] rest [IHo IHd]].
  - split; [by exists []|done].
  - rewrite transform_attempts_cons. cbv zeta.
    destruct ((read_code filename
                 (open_image globals fs filename degrees filters)).2)
      as [?|[]]; simpl;
      try (split; [by apply prefix_cons, prefix_nil|done]).
    split; [by apply prefix_cons|]. simpl. by rewrite IHd.
Qed.

(** X1. The [open_image] calls of a scan are an initial part of the list
    made of the default call and then the product of the configured angles
    and filters, in that order: at most one call more than there are pairs,
    and no image is decoded that was not opened before. *)
Theorem attempts_follow_the_configured_order filename :
  opened (qr_code globals fs filename).1
    `prefix_of` (default_rotate, default_filter)
                :: product (ANGLES globals) (FILTERS globals)
  ∧ length (opened (qr_code globals fs filename).1)
    ≤ 1 + length (ANGLES globals) * length (FILTERS globals)
  ∧ length (decoded (qr_code globals fs filename).1)
    ≤ length (opened (qr_code globals fs filename).1).
Proof.
  assert (opened (qr_code globals fs filename).1
            `prefix_of` (default_rotate, default_filter)
                        :: product (ANGLES globals) (FILTERS globals)
          ∧ length (decoded (qr_code globals fs filename).1)
            ≤ length (opened (qr_code globals fs filename).1)) as [Hp Hd].
  { rewrite qr_code_unfold.
    destruct (open_image globals fs filename default_rotate default_filter)
      as [img|]; [|split; [by apply prefix_cons, prefix_nil|simpl; lia]].
    destruct (transform_attempts_in_order filename
                (product (ANGLES globals) (FILTERS globals))) as [Ho Hl].
    destruct ((read_code filename (Some img)).2) as [?|[]]; simpl;
      try (split; [by apply prefix_cons, prefix_nil|lia]).
    split; [by apply prefix_cons|]. simpl. lia. }
  split_and!; [done| |done].
  apply prefix_length in Hp. simpl in Hp. by rewrite product_length in Hp.
Qed.

Lemma transform_attempts_app_exhausted filename before attempts :
  Forall (λ '(degrees, filters),
            no_valid_code (open_image globals fs filename degrees filters)
            = true) before →
  (transform_attempts globals fs filename (before ++ attempts)).2
  = (transform_attempts globals fs filename attempts).2
  ∧ opened (transform_attempts globals fs filename (before ++ attempts)).1
    = before ++ opened (transform_attempts globals fs filename attempts).1.
Proof.
  induction 1 as [|[degrees filters] before Hhd _ [IHr IHo]]; [done|].
  rewrite <-app_comm_cons, transform_attempts_cons. cbv zeta.
  rewrite (read_code_no_valid_code _ _ Hhd). simpl. by rewrite IHo.
Qed.

(** X2. When the direct attempt and the attempts [before] find no valid
    code and the next attempt of the product reads a payload with the
    prefix, the scan returns that payload and the attempts after it are
    not made. *)
Theorem first_valid_attempt_wins filename before degrees filters rest code :
  no_valid_code
    (open_image globals fs filename default_rotate default_filter) = true →
  is_Some (open_image globals fs filename default_rotate default_filter) →
  product (ANGLES globals) (FILTERS globals)
  = before ++ (degrees, filters) :: rest →
  Forall (λ '(degrees, filters),
            no_valid_code (open_image globals fs filename degrees filters)
            = true) before →
  first_payload (open_image globals fs filename degrees filters)
  = Some code →
  Str.startswith "UMMZI" code = true →
  (qr_code globals fs filename).2 = Ret (filename, code)
  ∧ opened (qr_code globals fs filename).1
    = (default_rotate, default_filter) :: before ++ [(degrees, filters)].
Proof.
  intros Hdirect [img Ho] Hprod Hbefore Hcode Hprefix.
  rewrite qr_code_unfold, Ho. rewrite Ho in Hdirect.
  rewrite (read_code_no_valid_code _ _ Hdirect), Hprod. unfold after.
  destruct (transform_attempts_app_exhausted filename before
              ((degrees, filters) :: rest) Hbefore) as [-> Hopened].
  cbn [fst snd]. rewrite opened_app, Hopened.
  rewrite transform_attempts_cons. cbv zeta.
  by rewrite (read_code_accepted _ _ _ Hcode Hprefix).
Qed.

(** X3. The fallback payload has no path separator, and the base name of
    the file is that payload followed by the extension. *)
Theorem fallback_is_a_plain_name filename :
  Str.contains "/" (fallback filename).2 = false
  ∧ ∃ ext, os_path.basename filename = (fallback filename).2 +:+ ext.
Proof.
  unfold fallback; simpl.
  pose proof (splitext_app (os_path.basename filename)) as Happ.
  pose proof (basename_lacks_sep filename) as Hsep.
  split; [|eauto].
  rewrite <-Happ, contains_app in Hsep.
  by apply orb_false_iff in Hsep as [? _].
Qed.
End MoreScanFacts.

(** ** The collision resolver, further *)

Section MoreDictFacts.
Context {V : Type}.
Implicit Types (d : Dict.t V) (k : string) (v : V).

Lemma get_set_items_inv d l k v :
  Dict.get (Dict.set_items d l) k = Some v → (k, v) ∈ l ∨ Dict.get d k = Some v.
Proof.
  revert d. induction l as [|[k' v'] l IH]; intros d; simpl; [auto|].
  intros [Hin|Hget]%IH.
  - left. by right.
  - rewrite get_set_item in Hget. case_decide as Hk; [|auto].
    injection Hget as <-. subst. left. left.
Qed.

End MoreDictFacts.

Section MoreResolverFacts.
Context `{PySet}.

Lemma find_duplicates_keys_foldl results rev qr :
  qr ∈ Dict.keys
         (foldl (λ rev '(orig, qr),
                   Dict.set_item rev qr
                     (set_add orig (default set_new (Dict.get rev qr))))
            rev results) ↔
  qr ∈ Dict.keys rev ∨ qr ∈ results.*2.
Proof.
  revert rev. induction results as [|[orig q] results IH]; intros rev; csimpl.
  - rewrite elem_of_nil. tauto.
  - rewrite IH, elem_of_keys_set_item, elem_of_cons. tauto.
Qed.

Lemma find_duplicates_keys results qr :
  qr ∈ Dict.keys (_find_duplicates results) ↔ qr ∈ results.*2.
Proof.
  unfold _find_duplicates. rewrite find_duplicates_keys_foldl.
  unfold Dict.keys. csimpl. rewrite elem_of_nil. tauto.
Qed.

(** X5. Whatever the results, the grouping has one entry per payload that
    occurs, and the group of a payload holds, once each, exactly the paths
    scanned with it; no group is empty. *)
Theorem grouping_by_payload results :
  NoDup (Dict.keys (_find_duplicates results))
  ∧ (∀ qr, qr ∈ Dict.keys (_find_duplicates results) ↔ qr ∈ results.*2)
  ∧ (∀ qr files,
       Dict.get (_find_duplicates results) qr = Some files →
       set_iter files ≠ []
       ∧ NoDup (set_iter files)
       ∧ ∀ f, f ∈ set_iter files ↔ (f, qr) ∈ results).
Proof.
  destruct (find_duplicates_groups results) as (Hkeys & Hmem & Hex).
  split_and!; [done|apply find_duplicates_keys|].
  intros qr files Hg. destruct (Hmem _ _ Hg) as [Hnd Hf].
  split_and!; [|done|done].
  assert (qr ∈ results.*2) as ([f q] & -> & Hin)%list_elem_of_fmap.
  { apply find_duplicates_keys, elem_of_keys. eauto. }
  apply Hf in Hin. intros Hnil. rewrite Hnil in Hin.
  by apply elem_of_nil in Hin.
Qed.

Lemma elem_of_assignments results f t :
  (f, t) ∈ assignments (_find_duplicates results) →
  ∃ qr files i,
    Dict.get (_find_duplicates results) qr = Some files
    ∧ set_iter files !! i = Some f
    ∧ t = target qr i f
    ∧ (f, qr) ∈ results.
Proof.
  destruct (find_duplicates_groups results) as (Hkeys & Hmem & _).
  intros ([qr files] & Hin & Hg)%list_elem_of_bind.
  apply elem_of_group_assignments in Hin as (i & Hi & ->).
  apply (elem_of_get _ _ _ Hkeys) in Hg.
  exists qr, files, i. split_and!; try done.
  apply (Hmem _ _ Hg). by eapply list_elem_of_lookup_2.
Qed.

(** X6. Whatever the results, repeated paths included: each path of the
    input is a key of the mapping once, no other path is, and the target
    of a path is built from a payload that path was scanned with. *)
Theorem mapping_on_any_results results :
  NoDup (Dict.keys (_file_mapping results))
  ∧ (∀ f, f ∈ Dict.keys (_file_mapping results) ↔ f ∈ results.*1)
  ∧ (∀ f new,
       Dict.get (_file_mapping results) f = Some new →
       ∃ qr i, (f, qr) ∈ results
               ∧ new = os_path.join (os_path.dirname f) (qr +:+ copy i)).
Proof.
  split_and!.
  - rewrite file_mapping_assignments. apply NoDup_keys_set_items. constructor.
  - apply file_mapping_keys.
  - intros f new. rewrite file_mapping_assignments.
    intros [Hin|[=]]%get_set_items_inv.
    apply elem_of_assignments in Hin as (qr & files & i & _ & _ & -> & Hin).
    by exists qr, i.
Qed.

(** A file that is alone with its payload is the first of its group. *)
Lemma lone_member_target results f qr :
  NoDup results.*1 → (f, qr) ∈ results →
  (∀ f', (f', qr) ∈ results → f' = f) →
  Dict.get (_file_mapping results) f = Some (target qr 0 f).
Proof.
  intros Hpaths Hin Hlone.
  destruct (file_mapping_of_result _ _ _ Hpaths Hin)
    as (files & i & Hg & Hi & Hm).
  destruct (find_duplicates_groups results) as (_ & Hmem & _).
  destruct (Hmem _ _ Hg) as [Hnd Hf].
  destruct i as [|i]; [done|].
  destruct (set_iter files) as [|f0 l] eqn:Hiter; [done|].
  assert (f0 = f) as -> by (apply Hlone, Hf; left).
  apply NoDup_cons in Hnd as [Hnotin _]. destruct Hnotin.
  by eapply list_elem_of_lookup_2.
Qed.

(** X7. A file that is alone with its payload gets the name
    [{payload}.jpg], without a copy suffix, joined to its own directory;
    when the payload has no path separator, the target is the file of that
    name in the directory of the file. *)
Theorem unique_payload_gets_bare_name results f qr :
  NoDup results.*1 → (f, qr) ∈ results →
  (∀ f', (f', qr) ∈ results → f' = f) →
  let new := os_path.join (os_path.dirname f) (qr +:+ ".jpg") in
  Dict.get (_file_mapping results) f = Some new
  ∧ (Str.contains "/" qr = false →
       os_path.dirname new = os_path.dirname f
       ∧ os_path.basename new = qr +:+ ".jpg").
Proof.
  intros Hpaths Hin Hlone new. split; [by apply lone_member_target|].
  intros Hq. unfold new.
  assert (Str.contains Str.sep (qr +:+ ".jpg") = false)
    by (rewrite contains_app; apply orb_false_iff; by split).
  by rewrite dirname_join, basename_join.
Qed.

(** X4. A file with the extension [.jpg] that could not be scanned, and
    that shares its fallback name with no other file, is mapped to its own
    name in its own directory. *)
Theorem lone_unscannable_jpg_keeps_its_name results f :
  NoDup results.*1 → (f, (fallback f).2) ∈ results →
  (∀ f', (f', (fallback f).2) ∈ results → f' = f) →
  (os_path.splitext (os_path.basename f)).2 = ".jpg" →
  Dict.get (_file_mapping results) f
  = Some (os_path.join (os_path.dirname f) (os_path.basename f)).
Proof.
  intros Hpaths Hin Hlone Hext.
  rewrite (lone_member_target _ _ _ Hpaths Hin Hlone). unfold target, copy.
  do 2 f_equal. unfold fallback; simpl. rewrite <-Hext.
  apply splitext_app.
Qed.

Lemma append_not_longer q s : q = q +:+ "_copy" +:+ s → False.
Proof.
  intros Heq%(f_equal chars). rewrite chars_app in Heq.
  rewrite <-(app_nil_r (chars q)) in Heq at 1.
  by apply app_inv_head in Heq.
Qed.

(** Two files get one target only when the payload of one is the payload
    of the other followed by [_copy{n}]. *)
Lemma same_target_cases results f1 q1 f2 q2 t :
  NoDup results.*1 →
  (f1, q1) ∈ results → (f2, q2) ∈ results → f1 ≠ f2 →
  Str.contains "/" q1 = false → Str.contains "/" q2 = false →
  Dict.get (_file_mapping results) f1 = Some t →
  Dict.get (_file_mapping results) f2 = Some t →
  (∃ n, 1 ≤ n ∧ q1 = q2 +:+ "_copy" +:+ pretty n)
  ∨ (∃ n, 1 ≤ n ∧ q2 = q1 +:+ "_copy" +:+ pretty n).
Proof.
  intros Hpaths Hin1 Hin2 Hne Hs1 Hs2 Ht1 Ht2.
  destruct (file_mapping_of_result _ _ _ Hpaths Hin1)
    as (files1 & i1 & Hg1 & Hi1 & Hm1).
  destruct (file_mapping_of_result _ _ _ Hpaths Hin2)
    as (files2 & i2 & Hg2 & Hi2 & Hm2).
  rewrite Hm1 in Ht1. rewrite Hm2 in Ht2.
  injection Ht1 as <-. injection Ht2 as Heq.
  apply (f_equal os_path.basename) in Heq. unfold target in Heq.
  rewrite !basename_join in Heq
    by (rewrite contains_app, copy_lacks_sep, orb_false_r; done).
  pose proof Heq as Hnames.
  apply same_name_cases in Heq as [->|[?|?]]; [|by right|by left].
  exfalso. apply (inj (String.app q1)), copy_inj in Hnames as ->.
  rewrite Hg1 in Hg2. injection Hg2 as <-.
  rewrite Hi1 in Hi2. by injection Hi2.
Qed.

(** X8. Two different files of one payload group never get the same
    target, when the payload has no path separator. *)
Theorem one_group_distinct_targets results f1 f2 qr t1 t2 :
  NoDup results.*1 →
  (f1, qr) ∈ results → (f2, qr) ∈ results → f1 ≠ f2 →
  Str.contains "/" qr = false →
  Dict.get (_file_mapping results) f1 = Some t1 →
  Dict.get (_file_mapping results) f2 = Some t2 →
  t1 ≠ t2.
Proof.
  intros Hpaths Hin1 Hin2 Hne Hs Ht1 Ht2 ->.
  destruct (same_target_cases _ _ _ _ _ _ Hpaths Hin1 Hin2 Hne Hs Hs Ht1 Ht2)
    as [(n & _ & Hn)|(n & _ & Hn)]; by apply append_not_longer in Hn.
Qed.

(** X9. When no payload has a path separator and no payload is another
    payload followed by [_copy{n}], the targets of the mapping are all
    different: no two renames have the same destination. *)
Theorem no_shared_destination results :
  NoDup results.*1 →
  (∀ f qr, (f, qr) ∈ results → Str.contains "/" qr = false) →
  (∀ q1 q2 n, q1 ∈ results.*2 → q2 ∈ results.*2 → 1 ≤ n →
     q1 ≠ q2 +:+ "_copy" +:+ pretty n) →
  NoDup (_file_mapping results).*2.
Proof.
  intros Hpaths Hsep Hcopy.
  assert (NoDup (_file_mapping results)) as Hnd.
  { apply NoDup_fmap_1 with (f := fst). fold (Dict.keys (_file_mapping results)).
    rewrite file_mapping_assignments. apply NoDup_keys_set_items. constructor. }
  apply NoDup_fmap_2_strong; [|done].
  intros [f1 t1] [f2 t2] Hin1 Hin2 Heq. simpl in Heq. subst t2.
  destruct (decide (f1 = f2)) as [->|Hne]; [done|]. exfalso.
  assert (NoDup (Dict.keys (_file_mapping results))) as Hkeys.
  { rewrite file_mapping_assignments. apply NoDup_keys_set_items. constructor. }
  apply (elem_of_get _ _ _ Hkeys) in Hin1 as Hg1, Hin2 as Hg2.
  assert (∃ q1, (f1, q1) ∈ results) as [q1 Hr1].
  { assert (f1 ∈ results.*1) as ([? q] & -> & ?)%list_elem_of_fmap
      by (apply file_mapping_keys, elem_of_keys; eauto). eauto. }
  assert (∃ q2, (f2, q2) ∈ results) as [q2 Hr2].
  { assert (f2 ∈ results.*1) as ([? q] & -> & ?)%list_elem_of_fmap
      by (apply file_mapping_keys, elem_of_keys; eauto). eauto. }
  destruct (same_target_cases _ _ _ _ _ _ Hpaths Hr1 Hr2 Hne
              (Hsep _ _ Hr1) (Hsep _ _ Hr2) Hg1 Hg2)
    as [(n & Hn & Heq)|(n & Hn & Heq)].
  - apply (Hcopy q1 q2 n); [| |done|done].
    + by apply (list_elem_of_fmap_2 snd) in Hr1.
    + by apply (list_elem_of_fmap_2 snd) in Hr2.
  - apply (Hcopy q2 q1 n); [| |done|done].
    + by apply (list_elem_of_fmap_2 snd) in Hr2.
    + by apply (list_elem_of_fmap_2 snd) in Hr1.
Qed.
End MoreResolverFacts.

(** ** File discovery *)

Section MatchFacts.
Import Str.

Lemma length_app_string s1 s2 :
  String.length (s1 +:+ s2) = String.length s1 + String.length s2.
Proof. induction s1 as [|a s1 IH]; simpl; [done|]. by rewrite IH. Qed.

Lemma length_chars s : length (chars s) = String.length s.
Proof. induction s as [|a s IH]; simpl; [done|]. by rewrite IH. Qed.

Lemma chars_rev_app s1 s2 :
  chars (String.rev_app s1 s2) = reverse (chars s1) ++ chars s2.
Proof.
  revert s2. induction s1 as [|a s1 IH]; intros s2; simpl; [done|].
  by rewrite IH, reverse_cons, <-(assoc_L (++)).
Qed.

Lemma chars_rev s : chars (String.rev s) = reverse (chars s).
Proof. unfold String.rev. by rewrite chars_rev_app, app_nil_r. Qed.

Lemma startswith_spec p s : startswith p s = true ↔ ∃ r, s = p +:+ r.
Proof.
  revert s. induction p as [|a p IH]; intros s.
  - split; [by exists s|by destruct s].
  - destruct s as [|b s]; simpl; [split; [done|by intros [? [=]]]|].
    rewrite andb_true_iff, Ascii.eqb_eq, IH. split.
    + intros [-> [r ->]]. by exists r.
    + intros [r [= -> ->]]. eauto.
Qed.

Lemma endswith_spec p s : endswith p s = true ↔ ∃ r, s = r +:+ p.
Proof.
  unfold endswith. rewrite startswith_spec. split.
  - intros [r Hr%(f_equal chars)].
    rewrite chars_app, !chars_rev in Hr.
    exists (string_of_list_ascii (reverse (chars r))). apply chars_inj.
    rewrite chars_app, list_ascii_of_string_of_list_ascii.
    apply (inj reverse). by rewrite Hr, reverse_app, reverse_involutive.
  - intros [r ->]. exists (String.rev r). apply chars_inj.
    by rewrite chars_app, !chars_rev, chars_app, reverse_app.
Qed.

Lemma endswith_length p s :
  endswith p s = true → String.length p ≤ String.length s.
Proof. intros [r ->]%endswith_spec. rewrite length_app_string. lia. Qed.

(** [*suf] matches the names that end with [suf]. *)
Lemma fnmatch_suffix suf name : glob.fnmatch "" suf name = endswith suf name.
Proof.
  unfold glob.fnmatch. simpl. destruct (endswith suf name) eqn:He; [|done].
  apply endswith_length in He. simpl. by apply Nat.leb_le.
Qed.

Lemma fnmatch_endswith pre suf name :
  glob.fnmatch pre suf name = true → endswith suf name = true.
Proof. unfold glob.fnmatch. by intros [[_ ?]%andb_true_iff _]%andb_true_iff. Qed.

Lemma fnmatch_startswith pre suf name :
  glob.fnmatch pre suf name = true → startswith pre name = true.
Proof. unfold glob.fnmatch. by intros [[? _]%andb_true_iff _]%andb_true_iff. Qed.

(** [UMMZI] and an extension of three letters do not overlap. *)
Lemma fnmatch_marker a b c name :
  startswith "UMMZI" name = true →
  endswith (String "." (String a (String b (String c "")))) name = true →
  glob.fnmatch "UMMZI" (String "." (String a (String b (String c "")))) name
  = true.
Proof.
  intros Hs He. unfold glob.fnmatch. rewrite Hs, He. cbn [andb].
  apply Nat.leb_le.
  apply startswith_spec in Hs as [r1 ->].
  apply endswith_spec in He as [r2 Heq].
  rewrite Heq, length_app_string, <-(length_chars r2).
  apply (f_equal chars) in Heq. rewrite !chars_app in Heq.
  cbn [list_ascii_of_string app] in Heq. cbn [String.length].
  destruct (chars r2) as [|? [|? [|? [|? [|? l]]]]];
    simplify_eq/=; lia.
Qed.
End MatchFacts.

Section DiscoveryFacts.
Context {FS : Type} `{!Posix FS}.

Lemma contains_rstrip c s :
  c ≠ Str.sep → Str.contains c (Str.rstrip Str.sep s) = Str.contains c s.
Proof.
  intros Hc. induction s as [|a s IH]; [done|]. cbn [Str.rstrip Str.contains].
  destruct (Str.rstrip Str.sep s) as [|b r] eqn:Hr.
  - rewrite <-IH. cbn [Str.contains]. rewrite orb_false_r.
    destruct (Ascii.eqb a Str.sep) eqn:Ha; cbn [Str.contains];
      [|by rewrite orb_false_r].
    apply Ascii.eqb_eq in Ha as ->. symmetry. by apply Ascii.eqb_neq.
  - by rewrite <-IH.
Qed.

(** The root has the wildcard characters of the directory as written. *)
Lemma has_magic_root directory :
  glob.has_magic (glob_root directory) = glob.has_magic directory.
Proof.
  assert (∀ c, c ≠ Str.sep →
            Str.contains c (glob_root directory) = Str.contains c directory)
    as Hc.
  { intros c Hc. unfold glob_root, os_path.split.
    change (directory +:+ "/**") with (directory +:+ String Str.sep "**").
    rewrite rpartition_last by done. cbn [fst].
    assert (Str.contains c (directory +:+ String Str.sep "")
            = Str.contains c directory) as Hhead.
    { rewrite contains_app. cbn [Str.contains].
      apply Ascii.eqb_neq in Hc. rewrite Ascii.eqb_sym in Hc.
      by rewrite Hc, !orb_false_r. }
    destruct (negb (String.eqb (directory +:+ String Str.sep "") "")
              && negb (Str.all_char Str.sep
                         (directory +:+ String Str.sep ""))); [|done].
    by rewrite contains_rstrip. }
  unfold glob.has_magic. by rewrite !Hc.
Qed.

(** A directory without wildcard characters is the one root. *)
Lemma roots_literal fs directory :
  glob.has_magic directory = false →
  glob.roots fs directory = [glob_root directory].
Proof.
  intros Hm. unfold glob.roots. cbv zeta.
  fold (glob_root directory). by rewrite has_magic_root, Hm.
Qed.

Lemma elem_of_iglob fs directory pre suf p :
  p ∈ glob.iglob fs directory pre suf ↔
  ∃ root chain name,
    root ∈ glob.roots fs directory
    ∧ (chain, name) ∈ walk fs root
    ∧ visible chain name = true
    ∧ glob.fnmatch pre suf name = true
    ∧ p = os_path.join (os_path.join root (glob.relative chain)) name.
Proof.
  unfold glob.iglob. rewrite list_elem_of_bind. split.
  - intros (root & Hp & Hroot).
    apply list_elem_of_bind in Hp as ([chain name] & Hp & Hin).
    destruct (visible chain name) eqn:Hv;
      destruct (glob.fnmatch pre suf name) eqn:Hm;
      unfold visible in Hv; rewrite Hv in Hp; simpl in Hp;
      try (apply elem_of_nil in Hp; contradiction).
    apply list_elem_of_singleton in Hp as ->. by exists root, chain, name.
  - intros (root & chain & name & Hroot & Hin & Hv & Hm & ->).
    exists root. split; [|done].
    apply list_elem_of_bind. exists (chain, name).
    split; [|done]. unfold visible in Hv. rewrite Hv, Hm. simpl.
    apply list_elem_of_singleton. done.
Qed.

Lemma elem_of_find_images fs directory p :
  p ∈ find_images fs directory ↔
  (p ∈ glob.iglob fs directory "" ".jpg"
   ∨ p ∈ glob.iglob fs directory "" ".jpeg"
   ∨ p ∈ glob.iglob fs directory "image" ".jpg"
   ∨ p ∈ glob.iglob fs directory "" ".JPG"
   ∨ p ∈ glob.iglob fs directory "" ".JEPG")
  ∧ (p ∉ glob.iglob fs directory "UMMZI" ".jpg")
  ∧ (p ∉ glob.iglob fs directory "UMMZI" ".JPG").
Proof.
  unfold find_images. cbv zeta.
  rewrite !elem_of_difference, !elem_of_union, !elem_of_list_to_set. tauto.
Qed.

(** The path of an entry ends with its name. *)
Lemma entry_basename fs root chain name :
  (chain, name) ∈ walk fs root →
  os_path.basename
    (os_path.join (os_path.join root (glob.relative chain)) name)
  = name.
Proof. intros Hw. apply basename_join. by eapply walk_plain. Qed.

Lemma discovered_images_cases fs directory p :
  p ∈ find_images fs directory →
  ∃ root chain name,
    root ∈ glob.roots fs directory
    ∧ (chain, name) ∈ walk fs root
    ∧ p = os_path.join (os_path.join root (glob.relative chain)) name
    ∧ visible chain name = true
    ∧ image_name name = true.
Proof.
  intros [Hin _]%elem_of_find_images.
  assert (∃ pre suf, p ∈ glob.iglob fs directory pre suf
                     ∧ suf ∈ [".jpg"; ".jpeg"; ".JPG"; ".JEPG"])
    as (pre & suf
        & (root & chain & name & Hr & Hw & Hv & Hm & ->)%elem_of_iglob
        & Hsuf).
  { destruct Hin as [?|[?|[?|[?|?]]]]; do 2 eexists; split; try eassumption;
      repeat constructor. }
  exists root, chain, name. split_and!; try done.
  apply fnmatch_endswith in Hm. unfold image_name.
  repeat (apply elem_of_cons in Hsuf as [->|Hsuf];
          [rewrite Hm; by rewrite ?orb_true_r|]).
  by apply elem_of_nil in Hsuf.
Qed.

(** An entry with a marked name is subtracted. *)
Lemma marked_entry_excluded fs directory root chain name :
  root ∈ glob.roots fs directory →
  (chain, name) ∈ walk fs root →
  visible chain name = true →
  marked_name name = true →
  os_path.join (os_path.join root (glob.relative chain)) name
  ∉ find_images fs directory.
Proof.
  intros Hr Hw Hv [Hs He]%andb_true_iff (_ & H1 & H2)%elem_of_find_images.
  apply orb_true_iff in He as [He|He].
  - apply H1, elem_of_iglob. exists root, chain, name.
    split_and!; try done. by apply fnmatch_marker.
  - apply H2, elem_of_iglob. exists root, chain, name.
    split_and!; try done. by apply fnmatch_marker.
Qed.

(** A discovered path does not end with a marked name. *)
Lemma discovered_basename_unmarked fs directory p :
  p ∈ find_images fs directory →
  marked_name (os_path.basename p) = false.
Proof.
  intros Hp.
  destruct (discovered_images_cases fs directory p Hp)
    as (root & chain & name & Hr & Hw & -> & Hv & _).
  rewrite (entry_basename _ _ _ _ Hw).
  destruct (marked_name name) eqn:Hm; [|done].
  by destruct (marked_entry_excluded fs directory root chain name).
Qed.

Lemma marked_jpg_excluded fs directory chain name :
  (chain, name) ∈ walk fs (glob_root directory) →
  visible chain name = true →
  marked_name name = true →
  path_of directory chain name ∉ find_images fs directory.
Proof.
  intros Hw Hv Hm Hp. apply discovered_basename_unmarked in Hp.
  unfold path_of in Hp. rewrite (entry_basename _ _ _ _ Hw) in Hp.
  congruence.
Qed.

(** X10. Every discovered path is the path of an entry below one of the
    directories the two stars start from: an entry that is not hidden, is
    not below a hidden directory, and whose name ends with one of the
    extensions of the patterns.  For a directory without wildcard
    characters, that is an entry below the directory itself. *)
Theorem discovered_files_are_visible_images fs directory p :
  p ∈ find_images fs directory →
  ∃ root chain name,
    root ∈ glob.roots fs directory
    ∧ (chain, name) ∈ walk fs root
    ∧ p = os_path.join (os_path.join root (glob.relative chain)) name
    ∧ visible chain name = true
    ∧ image_name name = true
    ∧ (glob.has_magic directory = false →
         (chain, name) ∈ walk fs (glob_root directory)
         ∧ p = path_of directory chain name).
Proof.
  intros Hp.
  destruct (discovered_images_cases fs directory p Hp)
    as (root & chain & name & Hr & Hw & -> & Hv & Himg).
  exists root, chain, name. split_and!; try done.
  intros Hm. rewrite (roots_literal _ _ Hm) in Hr.
  by apply list_elem_of_singleton in Hr as ->.
Qed.

(** X11. An entry named [UMMZI*.jpg] or [UMMZI*.JPG] is not discovered. *)
Theorem marked_jpg_is_not_discovered fs directory chain name :
  (chain, name) ∈ walk fs (glob_root directory) →
  visible chain name = true →
  marked_name name = true →
  path_of directory chain name ∉ find_images fs directory.
Proof. apply marked_jpg_excluded. Qed.

(** X12. Below a directory the two stars start from (the directory
    itself, when it has no wildcard character), an entry that is not
    hidden, whose name ends with one of the extensions of the patterns and
    does not start with [UMMZI], is discovered. *)
Theorem unmarked_image_is_discovered fs directory root chain name :
  root ∈ glob.roots fs directory →
  (chain, name) ∈ walk fs root →
  visible chain name = true →
  image_name name = true →
  Str.startswith "UMMZI" name = false →
  os_path.join (os_path.join root (glob.relative chain)) name
  ∈ find_images fs directory
  ∧ (glob.has_magic directory = false →
       root = glob_root directory
       ∧ path_of directory chain name ∈ find_images fs directory).
Proof.
  intros Hr Hw Hv Himg Hs.
  assert (os_path.join (os_path.join root (glob.relative chain)) name
          ∈ find_images fs directory) as Hin.
  { apply elem_of_find_images.
    assert (∀ suf,
              os_path.join (os_path.join root (glob.relative chain)) name
              ∉ glob.iglob fs directory "UMMZI" suf) as Hout.
    { intros suf
        (root' & chain' & name' & _ & Hw' & _ & Hm & Heq)%elem_of_iglob.
      apply (f_equal os_path.basename) in Heq.
      rewrite !(entry_basename fs) in Heq by done. subst name'.
      apply fnmatch_startswith in Hm. congruence. }
    split_and!; [|apply Hout..].
    unfold image_name in Himg.
    apply orb_true_iff in Himg as [Himg|He4];
      [apply orb_true_iff in Himg as [Himg|He3];
       [apply orb_true_iff in Himg as [He1|He2]|]|].
    - left. apply elem_of_iglob. exists root, chain, name.
      by rewrite fnmatch_suffix.
    - right; left. apply elem_of_iglob. exists root, chain, name.
      by rewrite fnmatch_suffix.
    - do 3 right; left. apply elem_of_iglob. exists root, chain, name.
      by rewrite fnmatch_suffix.
    - do 4 right. apply elem_of_iglob. exists root, chain, name.
      by rewrite fnmatch_suffix. }
  split; [done|]. intros Hm. rewrite (roots_literal _ _ Hm) in Hr.
  by apply list_elem_of_singleton in Hr as ->.
Qed.

(** X13. When every image entry in sight below the directories the two
    stars start from (the directory itself, when it has no wildcard
    character) is named [UMMZI*.jpg] or [UMMZI*.JPG], nothing is
    discovered. *)
Theorem only_marked_jpg_means_nothing_to_do fs directory :
  (∀ root chain name,
     root ∈ glob.roots fs directory →
     (chain, name) ∈ walk fs root →
     visible chain name = true → image_name name = true →
     marked_name name = true) →
  find_images fs directory = ∅.
Proof.
  intros Hmarked. apply elem_of_equiv_empty_L. intros p Hp.
  destruct (discovered_images_cases fs directory p Hp)
    as (root & chain & name & Hr & Hw & -> & Hv & Himg).
  by apply (marked_entry_excluded fs directory root chain name Hr Hw Hv
              (Hmarked _ _ _ Hr Hw Hv Himg)).
Qed.
End DiscoveryFacts.

(** ** The work scheduler and the driver, further *)

Section MoreScanReturns.
Context {FS Image : Type} `{!Imaging FS Image}.
Variable globals : config.
Variable fs : FS.

Lemma qr_code_returns filename f p :
  (qr_code globals fs filename).2 = Ret (f, p) →
  f = filename
  ∧ (Str.startswith "UMMZI" p = true ∨ p = (fallback filename).2).
Proof.
  rewrite qr_code_unfold.
  destruct (open_image globals fs filename default_rotate default_filter)
    as [img|]; [|by intros [= <- <-]; auto].
  destruct (read_code_cases filename (Some img))
    as [(code & -> & _ & Hp)|[->|(e & -> & Hne & _)]].
  - intros [= <- <-]. auto.
  - apply transform_attempts_returns.
  - by destruct e.
Qed.
End MoreScanReturns.

Section MoreDriverFacts.
Context {FS Image : Type} `{!Imaging FS Image} `{!Posix FS}.
Context `{!PySet} `{!Scheduling}.
Variable globals : config.

Lemma mapM_returns {A B} (f : A → result exception B) l ks :
  mapM f l = Ret ks → Forall2 (λ x k, f x = Ret k) l ks.
Proof.
  revert ks. induction l as [|x l IH]; intros ks; simpl.
  - intros [= <-]. constructor.
  - destruct (f x) as [k|e] eqn:Hx; simpl; [|done].
    destruct (mapM f l) as [ks'|e]; simpl; [|done].
    intros [= <-]. constructor; auto.
Qed.

Lemma mapM_all_return {A B} (f : A → result exception B) l :
  (∀ x, x ∈ l → ∃ k, f x = Ret k) →
  ∃ ks, mapM f l = Ret ks ∧ length ks = length l.
Proof.
  induction l as [|x l IH]; intros Hall; simpl; [by exists []|].
  destruct (Hall x) as [k ->]; [left|]. simpl.
  destruct IH as (ks & -> & Hlen); [intros; apply Hall; by right|].
  exists (k :: ks). simpl. by rewrite Hlen.
Qed.

Lemma get_qr_codes_returns fs directory results :
  get_qr_codes globals fs directory = Ret results →
  results.*1 = completed_order (elements (find_images fs directory))
  ∧ Forall (λ '(f, p), Str.startswith "UMMZI" p = true
                       ∨ p = (fallback f).2) results.
Proof.
  unfold get_qr_codes. case_bool_decide; [done|].
  destruct (mapM _ _) as [ks|e] eqn:Hm; simpl; [|done].
  intros [= <-]. apply mapM_returns in Hm.
  induction Hm as [|img [f p] l ks Hq _ [IH1 IH2]]; [done|].
  apply qr_code_returns in Hq as [-> Hp]. csimpl. rewrite IH1.
  split; [done|]. by constructor.
Qed.

(** X14. When the batch returns, it returns one result per discovered
    image: the paths of the results are the discovered images, once each,
    and every payload has the prefix or is the fallback name of its file. *)
Theorem scan_results_are_one_per_image fs directory results :
  get_qr_codes globals fs directory = Ret results →
  results.*1 ≡ₚ elements (find_images fs directory)
  ∧ NoDup results.*1
  ∧ Forall (λ '(f, p), Str.startswith "UMMZI" p = true
                       ∨ p = (os_path.splitext (os_path.basename f)).1)
      results.
Proof.
  intros [Hpaths Hpayloads]%get_qr_codes_returns.
  rewrite Hpaths, completed_order_perm.
  split_and!; [done|apply NoDup_elements|done].
Qed.

(** X15. When some image is discovered and no scan raises, the batch
    returns, with as many results as images. *)
Theorem batch_returns_when_no_scan_raises fs directory :
  find_images fs directory ≠ ∅ →
  (∀ img, img ∈ find_images fs directory →
          ∃ r, (qr_code globals fs img).2 = Ret r) →
  ∃ results, get_qr_codes globals fs directory = Ret results
             ∧ length results = size (find_images fs directory).
Proof.
  intros Hne Hall. unfold get_qr_codes.
  rewrite bool_decide_eq_false_2
    by (intros Hs; by apply size_empty_inv, leibniz_equiv in Hs).
  destruct (mapM_all_return (λ img, (qr_code globals fs img).2)
              (completed_order (elements (find_images fs directory))))
    as (ks & -> & Hlen).
  { intros img Himg. apply Hall. rewrite completed_order_perm in Himg.
    by apply elem_of_elements in Himg. }
  exists ks. split; [done|].
  by rewrite Hlen, completed_order_perm.
Qed.

(** X16. The batch ends in [SystemExit] exactly when no image is
    discovered, and the message then names the directory. *)
Theorem abort_only_for_an_empty_directory fs directory message :
  get_qr_codes globals fs directory = Raise (SystemExit message) ↔
  find_images fs directory = ∅
  ∧ message = "No unscanned images detected in " +:+ directory
              +:+ " - Aborting".
Proof.
  unfold get_qr_codes. case_bool_decide as Hs.
  - apply size_empty_inv, leibniz_equiv in Hs. split.
    + by intros [= <-].
    + by intros [_ ->].
  - split.
    + by destruct (mapM _ _).
    + intros [He _]. destruct Hs. by rewrite He.
Qed.

(** X17. The keys of the mapping built from the results of a batch are
    the discovered images, once each. *)
Theorem mapping_covers_the_discovered_images fs directory results :
  get_qr_codes globals fs directory = Ret results →
  Dict.keys (_file_mapping results) ≡ₚ elements (find_images fs directory).
Proof.
  intros [Hpaths _]%get_qr_codes_returns.
  rewrite <-(completed_order_perm (elements (find_images fs directory))),
    <-Hpaths.
  apply NoDup_Permutation.
  - rewrite file_mapping_assignments. apply NoDup_keys_set_items. constructor.
  - rewrite Hpaths, completed_order_perm. apply NoDup_elements.
  - apply file_mapping_keys.
Qed.

Lemma rename_step_settled fs t :
  settled fs t → ∃ t', rename_step fs t = (fs, Ret t') ∧ settled fs t'.
Proof.
  destruct t as [old new|old new seen|]; simpl.
  - intros ->. by exists (Checked old new true).
  - intros ->. by exists Finished.
  - by exists Finished.
Qed.

Lemma run_schedule_settled schedule fs tasks :
  Forall (settled fs) tasks →
  ∃ tasks', run_schedule schedule fs tasks = (fs, Ret tasks').
Proof.
  revert tasks. induction schedule as [|i schedule IH]; intros tasks Hall.
  - by exists tasks.
  - simpl. destruct (tasks !! i) as [t|] eqn:Hi; [|by apply IH].
    destruct (rename_step_settled fs t) as (t' & -> & Ht').
    { by eapply Forall_lookup_1. }
    apply IH. by apply Forall_insert.
Qed.

(** X18. When every destination exists before the renames start, no file
    is moved and nothing is raised, whatever the interleaving. *)
Theorem existing_destinations_are_left_alone fs images :
  (∀ old new, (old, new) ∈ images → os_path_exists fs new = true) →
  gather_renames fs images = (fs, Ret ()).
Proof.
  intros Hexist. unfold gather_renames. cbv zeta.
  destruct (run_schedule_settled
              (rename_schedule images
               ++ seq 0 (length ((λ '(old, new), rename_image old new)
                                   <$> images))
               ++ seq 0 (length ((λ '(old, new), rename_image old new)
                                   <$> images)))
              fs ((λ '(old, new), rename_image old new) <$> images))
    as [tasks' ->]; [|done].
  apply Forall_fmap, Forall_forall. intros [old new] Hin. simpl. eauto.
Qed.

(** One task, from any point of its life, under any schedule that ends
    with its two steps. *)
Lemma run_single_task schedule fs t :
  match run_schedule (schedule ++ [0; 0]) fs [t] with
  | (fs', Ret _) => (fs', Ret ())
  | (fs', Raise e) => (fs', Raise e)
  end
  = match t with
    | Start old new => rename_alone fs old new
    | Checked old new false =>
        match os_rename fs old new with
        | Ret fs' => (fs', Ret ())
        | Raise e => (fs, Raise e)
        end
    | _ => (fs, Ret ())
    end.
Proof.
  revert fs t. induction schedule as [|i schedule IH]; intros fs t.
  - unfold rename_alone.
    destruct t as [old new|old new [|]|]; simpl; try done.
    + destruct (os_path_exists fs new); simpl; [done|].
      by destruct (os_rename fs old new).
    + by destruct (os_rename fs old new).
  - rewrite <-app_comm_cons. cbn [run_schedule].
    destruct i as [|i]; [|apply IH]. cbn [lookup list_lookup].
    destruct t as [old new|old new [|]|]; cbn [rename_step].
    + cbn [insert list_insert]. rewrite IH. unfold rename_alone.
      by destruct (os_path_exists fs new).
    + cbn [insert list_insert]. by rewrite IH.
    + destruct (os_rename fs old new) as [fs'|e]; [|done].
      cbn [insert list_insert]. by rewrite IH.
    + cbn [insert list_insert]. by rewrite IH.
Qed.

(** X19. A rename that runs alone is skipped when its destination exists
    and is [os.rename]'s outcome otherwise, whatever the schedule. *)
Theorem lone_rename_is_check_then_move fs old new :
  gather_renames fs [(old, new)] = rename_alone fs old new.
Proof.
  unfold gather_renames. cbv zeta. cbn [fmap list_fmap length seq].
  change (seq 0 1 ++ seq 0 1) with [0; 0].
  apply (run_single_task (rename_schedule [(old, new)]) fs
           (rename_image old new)).
Qed.

(** X20. Directories are processed in turn: a run over [before ++ dirs]
    is the run over [before] followed, when that one completes, by the run
    over [dirs] on the files it left. *)
Theorem directories_are_processed_in_turn fs before dirs workers :
  main globals fs (before ++ dirs) workers
  = match main globals fs before workers with
    | (log, fs', Ret _) =>
        let '(log', fs'', r) := main globals fs' dirs workers in
        (log ++ log', fs'', r)
    | stopped => stopped
    end.
Proof.
  unfold main. destruct (workers <=? 0)%Z; [done|]. apply main_loop_app.
Qed.

(** X21. When the directories before it have completed and the scan of a
    discovered file raises, the run ends with an uncaught exception before
    any file of that directory is renamed; the later directories are not
    processed. *)
Theorem raising_scan_stops_the_run
    fs before directory remaining workers fs' filename e :
  main globals fs before workers = (before, fs', Ret ()) →
  filename ∈ find_images fs' directory →
  (qr_code globals fs' filename).2 = Raise e →
  ∃ e', main globals fs (before ++ directory :: remaining) workers
        = (before, fs', Raise (Uncaught e')).
Proof.
  unfold main. destruct (workers <=? 0)%Z; [done|].
  intros Hbefore Hin Hraise.
  destruct (get_qr_codes_raises globals fs' directory filename e Hin Hraise)
    as [e' He'].
  exists e'. rewrite main_loop_app, Hbefore. cbn [main_loop].
  by rewrite He', app_nil_r.
Qed.
End MoreDriverFacts.

(** X22. After the command line is parsed, with filter names among the
    allowed choices, [all] is never among the configured filters and every
    configured name stands for [None] or for a kernel of Pillow. *)
Theorem cli_filters_name_kernels angles filters monochrome f :
  (∀ f, f ∈ filters → f ∈ Dict.keys MAP_FILTERS) →
  f ∈ FILTERS (cli_globals angles filters monochrome) →
  f ≠ "all"
  ∧ (Dict.get MAP_FILTERS f = Some PyNone
     ∨ ∃ k, Dict.get MAP_FILTERS f = Some (PyFilter k)).
Proof.
  intros Hchoices. unfold cli_globals; simpl. case_bool_decide as Hall.
  - vm_compute filter.
    intros Hf.
    repeat (apply elem_of_cons in Hf as [->|Hf];
            [split; [done|right; eexists; reflexivity]|]).
    by apply elem_of_nil in Hf.
  - intros Hf. assert (f ≠ "all") by congruence. split; [done|].
    apply Hchoices in Hf. unfold Dict.keys in Hf. cbn in Hf.
    repeat (apply elem_of_cons in Hf as [->|Hf];
            [first [done|left; reflexivity|right; eexists; reflexivity]|]).
    by apply elem_of_nil in Hf.
Qed.

(** ** What the decoder is given *)

Section DecoderInput.
Context {FS Image : Type} `{!Imaging FS Image}.
Variable globals : config.
Variable fs : FS.

Lemma transform_attempts_decoded filename attempts :
  decoded (transform_attempts globals fs filename attempts).1
  = (λ '(degrees, filters), open_image globals fs filename degrees filters)
    <$> opened (transform_attempts globals fs filename attempts).1.
Proof.
  induction attempts as [|[degrees filters] rest IH]; [done|].
  rewrite transform_attempts_cons. cbv zeta.
  destruct ((read_code filename
               (open_image globals fs filename degrees filters)).2)
    as [?|[]]; simpl; try done.
  by rewrite IH.
Qed.

Lemma qr_code_decoded filename :
  decoded (qr_code globals fs filename).1
  = match open_image globals fs filename default_rotate default_filter with
    | Some _ =>
        (λ '(degrees, filters),
           open_image globals fs filename degrees filters)
        <$> opened (qr_code globals fs filename).1
    | None => []
    end.
Proof.
  rewrite qr_code_unfold.
  destruct (open_image globals fs filename default_rotate default_filter)
    as [img|] eqn:Ho; [|done].
  destruct ((read_code filename (Some img)).2) as [?|[]]; simpl;
    rewrite ?Ho; try done.
  by rewrite transform_attempts_decoded.
Qed.

(** X23. The decoder is given exactly what [open_image] returned for the
    file with the pairs tried, in the order tried; when the first
    [open_image] returns [None], it is given nothing. *)
Theorem decoder_sees_the_opened_images filename :
  decoded (qr_code globals fs filename).1
  = match open_image globals fs filename default_rotate default_filter with
    | Some _ =>
        (λ '(degrees, filters),
           open_image globals fs filename degrees filters)
        <$> opened (qr_code globals fs filename).1
    | None => []
    end.
Proof. apply qr_code_decoded. Qed.

Lemma open_image_thresholded filename rotate filter img :
  MONOCHROME globals = true →
  open_image globals fs filename rotate filter = Some img →
  ∃ before, Image_threshold before = Ret img.
Proof.
  intros Hm. unfold open_image, mbind, mret, result_bind, result_ret.
  rewrite Hm.
  destruct (Image_open fs filename) as [raw|]; [|done].
  destruct (if bool_decide (rotate ≠ 0%Z) then Image_rotate raw rotate
            else Ret raw) as [turned|]; [|done].
  destruct (if negb (String.eqb filter "")
            then match Dict.get MAP_FILTERS filter with
                 | Some o => if truthy o then Image_filter turned o
                             else Ret turned
                 | None => Ret turned
                 end
            else Ret turned) as [filtered|]; [|done].
  destruct (Image_threshold filtered) as [img'|] eqn:Ht; [|done].
  intros [= <-]. eauto.
Qed.

(** X24. With the monochrome flag set, every image the decoder is given
    during a scan is the result of the threshold. *)
Theorem monochrome_reaches_every_attempt filename img :
  MONOCHROME globals = true →
  Some img ∈ decoded (qr_code globals fs filename).1 →
  ∃ before, Image_threshold before = Ret img.
Proof.
  intros Hm. rewrite qr_code_decoded.
  destruct (open_image globals fs filename default_rotate default_filter);
    [|by intros ?%elem_of_nil].
  intros ([degrees filters] & Ho & _)%list_elem_of_fmap.
  symmetry in Ho. by eapply open_image_thresholded.
Qed.
End DecoderInput.

(** ** The further properties on concrete inputs *)

Section FurtherConcrete.
Import Lab Cases.

(** The label that is misread until turned: found at the second pair. *)
Lemma first_valid_attempt_wins_witness :
  (qr_code cli_defaults sideways "d/a.jpg").2 = Ret ("d/a.jpg", "UMMZI7")
  ∧ opened (qr_code cli_defaults sideways "d/a.jpg").1
    = [(1, "blur"); (180, "blur"); (90, "blur")]%Z.
Proof.
  apply (first_valid_attempt_wins cli_defaults sideways "d/a.jpg"
           [(180%Z, "blur")] 90%Z "blur"
           [(270, "blur"); (10, "blur"); (170, "blur"); (75, "blur");
            (340, "blur")]%Z "UMMZI7").
  - reflexivity.
  - eexists. reflexivity.
  - reflexivity.
  - repeat constructor.
  - reflexivity.
  - reflexivity.
Defined.

Lemma lone_unscannable_jpg_keeps_its_name_witness :
  NoDup one_each.*1
  ∧ ("d/a.jpg", "a") ∈ one_each
  ∧ Dict.get (_file_mapping one_each) "d/a.jpg" = Some "d/a.jpg".
Proof.
  assert (Hpaths : NoDup one_each.*1) by compute_done.
  assert (Hin : ("d/a.jpg", (fallback "d/a.jpg").2) ∈ one_each)
    by compute_done.
  split_and!; [exact Hpaths|exact Hin|].
  apply (lone_unscannable_jpg_keeps_its_name one_each "d/a.jpg" Hpaths Hin);
    [|reflexivity].
  intros f' Hf'. apply elem_of_cons in Hf' as [Hf'|Hf'];
    [by injection Hf'|].
  apply list_elem_of_singleton in Hf'. discriminate Hf'.
Defined.

Lemma unique_payload_gets_bare_name_witness :
  NoDup one_each.*1
  ∧ ("d/b.jpg", "UMMZI1") ∈ one_each
  ∧ Dict.get (_file_mapping one_each) "d/b.jpg" = Some "d/UMMZI1.jpg"
  ∧ os_path.dirname "d/UMMZI1.jpg" = os_path.dirname "d/b.jpg"
  ∧ os_path.basename "d/UMMZI1.jpg" = "UMMZI1.jpg".
Proof.
  assert (Hpaths : NoDup one_each.*1) by compute_done.
  assert (Hin : ("d/b.jpg", "UMMZI1") ∈ one_each) by compute_done.
  assert (Hlone : ∀ f', (f', "UMMZI1") ∈ one_each → f' = "d/b.jpg").
  { intros f' Hf'. apply elem_of_cons in Hf' as [Hf'|Hf'];
      [discriminate Hf'|].
    apply list_elem_of_singleton in Hf'. by injection Hf'. }
  destruct (unique_payload_gets_bare_name one_each "d/b.jpg" "UMMZI1"
              Hpaths Hin Hlone) as [Hget Hplace].
  destruct (Hplace eq_refl) as [Hdir Hbase].
  split_and!; [exact Hpaths|exact Hin|exact Hget|exact Hdir|exact Hbase].
Defined.

Lemma one_group_distinct_targets_witness :
  NoDup three_of_a_kind.*1
  ∧ ("d/a.jpg", "UMMZI1") ∈ three_of_a_kind
  ∧ ("d/c.jpeg", "UMMZI1") ∈ three_of_a_kind
  ∧ "d/UMMZI1.jpg" ≠ "d/UMMZI1_copy2.jpg".
Proof.
  assert (Hpaths : NoDup three_of_a_kind.*1) by compute_done.
  assert (H1 : ("d/a.jpg", "UMMZI1") ∈ three_of_a_kind) by compute_done.
  assert (H2 : ("d/c.jpeg", "UMMZI1") ∈ three_of_a_kind) by compute_done.
  split_and!; [exact Hpaths|exact H1|exact H2|].
  apply (one_group_distinct_targets three_of_a_kind "d/a.jpg" "d/c.jpeg"
           "UMMZI1" _ _ Hpaths H1 H2); [discriminate|reflexivity..].
Defined.

Lemma no_shared_destination_witness :
  NoDup three_of_a_kind.*1
  ∧ NoDup (_file_mapping three_of_a_kind).*2
  ∧ (_file_mapping three_of_a_kind).*2
    = ["d/UMMZI1.jpg"; "e/UMMZI1_copy1.jpg"; "d/UMMZI1_copy2.jpg";
       "d/x.jpg"].
Proof.
  assert (Hpaths : NoDup three_of_a_kind.*1) by compute_done.
  split_and!; [exact Hpaths| |reflexivity].
  apply (no_shared_destination three_of_a_kind Hpaths).
  - intros f qr Hin. unfold three_of_a_kind in Hin.
    repeat (apply elem_of_cons in Hin as [Hin|Hin];
            [injection Hin as -> ->; reflexivity|]).
    by apply elem_of_nil in Hin.
  - intros q1 q2 n H1 H2 _. unfold three_of_a_kind in H1, H2.
    cbn in H1, H2.
    repeat (apply elem_of_cons in H1 as [->|H1]);
      try (by apply elem_of_nil in H1);
      repeat (apply elem_of_cons in H2 as [->|H2]);
      try (by apply elem_of_nil in H2); discriminate.
Defined.

(** Directory arguments with wildcard characters, as [glob] expands
    them. *)
Example fnmatchcase_ex :
  fnmatchcase "d1" "d[1]" = true
  ∧ fnmatchcase "d[1]" "d[1]" = false
  ∧ fnmatchcase "d[1]" "d[[]1]" = true
  ∧ fnmatchcase "b" "[!a-c]" = false
  ∧ fnmatchcase "x" "[!a-c]" = true
  ∧ fnmatchcase "]" "[]x]" = true
  ∧ fnmatchcase "-" "[a-]" = true
  ∧ fnmatchcase "ab" "a?" = true
  ∧ fnmatchcase "a" "a?" = false
  ∧ fnmatchcase "[" "[" = true.
Proof. repeat split; reflexivity. Qed.

Example glob_roots_ex :
  glob.roots bracket_names "d[1]" = ["d1"]
  ∧ glob.roots bracket_names "d*" = ["d1"; "d[1]"]
  ∧ glob.roots bracket_names "d?" = ["d1"]
  ∧ glob.roots bracket_names "d[[]1]" = ["d[1]"]
  ∧ glob.roots bracket_names "d1" = ["d1"]
  ∧ glob.roots bracket_names "**" = [""; "d1"; "d[1]"]
  ∧ find_images bracket_names "d*" = {["d1/b.jpg"; "d[1]/a.jpg"]}
  ∧ find_images bracket_names "d[[]1]" = {["d[1]/a.jpg"]}
  ∧ find_images bracket_names "**" = {["d1/b.jpg"; "d[1]/a.jpg"]}.
Proof. repeat split; vm_compute; reflexivity. Qed.

(** The patterns match directories as well as files: a directory named
    like an image is discovered, cannot be opened, and keeps its name. *)
Example directory_named_like_an_image :
  find_images [("d/pics.jpg/notes.txt", blank)] "d" = {["d/pics.jpg"]}
  ∧ Image_open [("d/pics.jpg/notes.txt", blank)] "d/pics.jpg"
    = Raise (OtherException "IsADirectoryError")
  ∧ (qr_code cli_defaults [("d/pics.jpg/notes.txt", blank)] "d/pics.jpg").2
    = Ret ("d/pics.jpg", "pics")
  ∧ main cli_defaults [("d/pics.jpg/notes.txt", blank)] ["d"] 4
    = (["d"], [("d/pics.jpg/notes.txt", blank)], Ret ()).
Proof. repeat split; vm_compute; reflexivity. Qed.

(** The pattern [d[1]] names the directory [d1], not the directory that
    is spelled like it. *)
Lemma discovered_files_are_visible_images_witness :
  find_images bracket_names "d[1]" = {["d1/b.jpg"]}
  ∧ (∃ root chain name,
       root ∈ glob.roots bracket_names "d[1]"
       ∧ (chain, name) ∈ walk bracket_names root
       ∧ "d1/b.jpg"
         = os_path.join (os_path.join root (glob.relative chain)) name
       ∧ visible chain name = true
       ∧ image_name name = true
       ∧ (glob.has_magic "d[1]" = false →
            (chain, name) ∈ walk bracket_names (glob_root "d[1]")
            ∧ "d1/b.jpg" = path_of "d[1]" chain name))
  ∧ glob.has_magic "d" = false
  ∧ ∃ root chain name,
      root ∈ glob.roots already_renamed "d"
      ∧ (chain, name) ∈ walk already_renamed root
      ∧ "d/UMMZI1.jpeg"
        = os_path.join (os_path.join root (glob.relative chain)) name
      ∧ visible chain name = true
      ∧ image_name name = true
      ∧ (glob.has_magic "d" = false →
           (chain, name) ∈ walk already_renamed (glob_root "d")
           ∧ "d/UMMZI1.jpeg" = path_of "d" chain name).
Proof.
  assert (Hin : "d1/b.jpg" ∈ find_images bracket_names "d[1]")
    by compute_done.
  assert (Hin' : "d/UMMZI1.jpeg" ∈ find_images already_renamed "d")
    by compute_done.
  split_and!; [vm_compute; reflexivity| |reflexivity|].
  - exact (discovered_files_are_visible_images bracket_names "d[1]"
             "d1/b.jpg" Hin).
  - exact (discovered_files_are_visible_images already_renamed "d"
             "d/UMMZI1.jpeg" Hin').
Defined.

Lemma marked_jpg_is_not_discovered_witness :
  ([], "UMMZI2.jpg") ∈ walk already_renamed (glob_root "d")
  ∧ path_of "d" [] "UMMZI2.jpg" = "d/UMMZI2.jpg"
  ∧ path_of "d" [] "UMMZI2.jpg" ∉ find_images already_renamed "d".
Proof.
  assert (Hw : ([], "UMMZI2.jpg") ∈ walk already_renamed (glob_root "d"))
    by compute_done.
  split_and!; [exact Hw|reflexivity|].
  exact (marked_jpg_is_not_discovered already_renamed "d" [] "UMMZI2.jpg"
           Hw eq_refl eq_refl).
Defined.

Lemma unmarked_image_is_discovered_witness :
  glob.roots unscannable "d" = ["d"]
  ∧ ([], "a.jpeg") ∈ walk unscannable "d"
  ∧ "d/a.jpeg" ∈ find_images unscannable "d"
  ∧ path_of "d" [] "a.jpeg" ∈ find_images unscannable "d"
  ∧ glob.roots bracket_names "d[1]" = ["d1"]
  ∧ "d1/b.jpg" ∈ find_images bracket_names "d[1]".
Proof.
  assert (Hr : "d" ∈ glob.roots unscannable "d") by compute_done.
  assert (Hw : ([], "a.jpeg") ∈ walk unscannable "d") by compute_done.
  assert (Hr' : "d1" ∈ glob.roots bracket_names "d[1]") by compute_done.
  assert (Hw' : ([], "b.jpg") ∈ walk bracket_names "d1") by compute_done.
  split_and!; [reflexivity|exact Hw| | |reflexivity|].
  - exact (proj1 (unmarked_image_is_discovered unscannable "d" "d" []
                    "a.jpeg" Hr Hw eq_refl eq_refl eq_refl)).
  - exact (proj2 (proj2 (unmarked_image_is_discovered unscannable "d" "d" []
                           "a.jpeg" Hr Hw eq_refl eq_refl eq_refl)
                    eq_refl)).
  - exact (proj1 (unmarked_image_is_discovered bracket_names "d[1]" "d1" []
                    "b.jpg" Hr' Hw' eq_refl eq_refl eq_refl)).
Defined.

Lemma only_marked_jpg_means_nothing_to_do_witness :
  glob.roots marked_only "d" = ["d"]
  ∧ walk marked_only "d"
    = [([], "UMMZI2.jpg"); ([], "sub"); (["sub"], "UMMZI3.JPG");
       ([], "notes.txt")]
  ∧ find_images marked_only "d" = ∅.
Proof.
  split_and!; [reflexivity|reflexivity|].
  apply (only_marked_jpg_means_nothing_to_do marked_only "d").
  intros root chain name Hr.
  change (glob.roots marked_only "d") with ["d"] in Hr.
  apply list_elem_of_singleton in Hr as ->. intros Hin.
  change (walk marked_only "d")
    with [([] : list string, "UMMZI2.jpg"); ([], "sub");
          (["sub"], "UMMZI3.JPG"); ([], "notes.txt")] in Hin.
  repeat (apply elem_of_cons in Hin as [Hin|Hin];
          [injection Hin as -> ->; intros _ Himg;
           first [reflexivity|discriminate Himg]|]).
  by apply elem_of_nil in Hin.
Defined.

Lemma scan_results_are_one_per_image_witness :
  let results :=
    [("d/a_copy1.jpg", "a_copy1"); ("d/a.jpg", "a"); ("d/a.jpeg", "a")] in
  get_qr_codes cli_defaults unscannable "d" = Ret results
  ∧ results.*1 ≡ₚ elements (find_images unscannable "d")
  ∧ NoDup results.*1.
Proof.
  intros results.
  assert (Hret : get_qr_codes cli_defaults unscannable "d" = Ret results)
    by reflexivity.
  destruct (scan_results_are_one_per_image cli_defaults unscannable "d"
              results Hret) as (Hperm & Hnd & _).
  split_and!; [exact Hret|exact Hperm|exact Hnd].
Defined.

Lemma batch_returns_when_no_scan_raises_witness :
  find_images unscannable "d" ≠ ∅
  ∧ ∃ results, get_qr_codes cli_defaults unscannable "d" = Ret results
               ∧ length results = size (find_images unscannable "d").
Proof.
  assert (Hne : find_images unscannable "d" ≠ ∅).
  { intros Hempty.
    assert ("d/a.jpg" ∈ find_images unscannable "d") as Hin by compute_done.
    rewrite Hempty in Hin. by apply not_elem_of_empty in Hin. }
  split; [exact Hne|].
  apply (batch_returns_when_no_scan_raises cli_defaults unscannable "d" Hne).
  intros img Himg. apply elem_of_elements in Himg.
  change (elements (find_images unscannable "d"))
    with ["d/a_copy1.jpg"; "d/a.jpg"; "d/a.jpeg"] in Himg.
  repeat (apply elem_of_cons in Himg as [->|Himg];
          [eexists; reflexivity|]).
  by apply elem_of_nil in Himg.
Defined.

Lemma abort_only_for_an_empty_directory_witness :
  get_qr_codes cli_defaults two_directories "e"
  = Raise (SystemExit "No unscanned images detected in e - Aborting")
  ∧ find_images two_directories "e" = ∅.
Proof.
  assert (Hexit : get_qr_codes cli_defaults two_directories "e"
                  = Raise (SystemExit
                             "No unscanned images detected in e - Aborting"))
    by reflexivity.
  split; [exact Hexit|].
  exact (proj1 (proj1 (abort_only_for_an_empty_directory cli_defaults
                         two_directories "e" _) Hexit)).
Defined.

Lemma mapping_covers_the_discovered_images_witness :
  let results :=
    [("d/a_copy1.jpg", "a_copy1"); ("d/a.jpg", "a"); ("d/a.jpeg", "a")] in
  get_qr_codes cli_defaults unscannable "d" = Ret results
  ∧ Dict.keys (_file_mapping results)
    ≡ₚ elements (find_images unscannable "d").
Proof.
  intros results.
  assert (Hret : get_qr_codes cli_defaults unscannable "d" = Ret results)
    by reflexivity.
  split; [exact Hret|].
  exact (mapping_covers_the_discovered_images cli_defaults unscannable "d"
           results Hret).
Defined.

(** Two files without a code are mapped to themselves: nothing moves. *)
Lemma existing_destinations_are_left_alone_witness :
  _file_mapping [("d/a.jpg", "a"); ("d/notes.jpg", "notes")]
  = [("d/a.jpg", "d/a.jpg"); ("d/notes.jpg", "d/notes.jpg")]
  ∧ gather_renames nothing_to_read
      [("d/a.jpg", "d/a.jpg"); ("d/notes.jpg", "d/notes.jpg")]
    = (nothing_to_read, Ret ()).
Proof.
  split; [reflexivity|].
  apply (existing_destinations_are_left_alone nothing_to_read).
  intros old new Hin.
  repeat (apply elem_of_cons in Hin as [Hin|Hin];
          [injection Hin as -> ->; reflexivity|]).
  by apply elem_of_nil in Hin.
Defined.

(** [c] is renamed, then the scan of [d/b.jpg] raises: [e] is not looked
    at. *)
Lemma raising_scan_stops_the_run_witness :
  let fs' := (main cli_defaults good_then_bad ["c"] 4).1.2 in
  main cli_defaults good_then_bad ["c"] 4 = (["c"], fs', Ret ())
  ∧ "d/b.jpg" ∈ find_images fs' "d"
  ∧ (qr_code cli_defaults fs' "d/b.jpg").2 = Raise UnicodeDecodeError
  ∧ lookup_file fs' "e/c.jpg" = lookup_file good_then_bad "e/c.jpg"
  ∧ ∃ e', main cli_defaults good_then_bad (["c"] ++ "d" :: ["e"]) 4
          = (["c"], fs', Raise (Uncaught e')).
Proof.
  intros fs'.
  assert (Hbefore : main cli_defaults good_then_bad ["c"] 4
                    = (["c"], fs', Ret ())) by reflexivity.
  assert (Hin : "d/b.jpg" ∈ find_images fs' "d")
    by compute_done.
  assert (Hraise : (qr_code cli_defaults fs' "d/b.jpg").2
                   = Raise UnicodeDecodeError) by reflexivity.
  split_and!; [exact Hbefore|exact Hin|exact Hraise|reflexivity|].
  exact (raising_scan_stops_the_run cli_defaults good_then_bad ["c"] "d"
           ["e"] 4 fs' "d/b.jpg" UnicodeDecodeError Hbefore Hin Hraise).
Defined.

Lemma cli_filters_name_kernels_witness :
  FILTERS (cli_globals [180]%Z ["none"; "all"] false)
  = ["blur"; "smooth"; "detail"; "edges"; "sharpen"]
  ∧ "edges" ≠ "all"
  ∧ (Dict.get MAP_FILTERS "edges" = Some PyNone
     ∨ ∃ k, Dict.get MAP_FILTERS "edges" = Some (PyFilter k)).
Proof.
  split; [reflexivity|].
  apply (cli_filters_name_kernels [180]%Z ["none"; "all"] false "edges").
  - intros f Hf.
    repeat (apply elem_of_cons in Hf as [->|Hf]; [compute_done|]).
    by apply elem_of_nil in Hf.
  - compute_done.
Defined.

Lemma monochrome_reaches_every_attempt_witness :
  MONOCHROME monochrome_cli = true
  ∧ Some blank_thresholded
    ∈ decoded (qr_code monochrome_cli nothing_to_read "d/a.jpg").1
  ∧ ∃ before, Image_threshold before = Ret blank_thresholded.
Proof.
  assert (Hin : Some blank_thresholded
                ∈ decoded (qr_code monochrome_cli nothing_to_read
                             "d/a.jpg").1)
    by (apply list_elem_of_lookup; exists 0; reflexivity).
  split_and!; [reflexivity|exact Hin|].
  exact (monochrome_reaches_every_attempt monochrome_cli nothing_to_read
           "d/a.jpg" blank_thresholded eq_refl Hin).
Defined.

End FurtherConcrete.
